(** * Execution context, message bus and authorization core

    A shallow embedding of

      - [src/app/core/context.ts]: MessageBus, asyncLocalStorage, getContext;
      - [src/app/core/identity/identity.ts]: isAuthenticated, getSubject, and
        the policies module that follows it (Environment, Policy, policies);
      - the authorization middleware next to them: getIp, getEnv, authorize.

    JavaScript exceptions are explicit completions, mutable objects are
    explicit state, and the collaborating packages (Node's EventEmitter and
    AsyncLocalStorage, @casl/ability) are modelled as far as the code above
    calls them; ua-parser-js and request-ip are parameters of the
    middleware. *)

From stdpp Require Import gmap strings list fin_maps.
From Stdlib Require Import ZArith.

Open Scope Z_scope.
Open Scope string_scope.
Open Scope list_scope.

(* ===================================================================== *)
(** ** JavaScript values, exceptions and completions                      *)
(* ===================================================================== *)

Module Js.

(** The values that flow through the bus ([any] in the source): the payload
    of an event, the result of a listener, the value a promise is fulfilled
    with.  Thenables are not among them, so fulfilling a promise never
    chains to another promise. *)
Inductive JsValue : Type :=
| JsUndefined
| JsNull
| JsBool (b : bool)
| JsNumber (z : Z)
| JsString (s : string).

(** Everything the modelled code can throw:
    [new Error(message)];
    [new ProblemDetailsException(new ProblemDetails(type, title, status))];
    CASL's [ForbiddenError], raised by [throwUnlessCan];
    Node's ERR_UNHANDLED_ERROR, raised when 'error' is emitted and nobody
    listens, with the first argument of the emission as its context;
    a value thrown by a listener. *)
Inductive Exception : Type :=
| JsError (message : string)
| ProblemDetailsException (type title : string) (status : Z)
| ForbiddenError (action subjectType : string)
| UnhandledError (context : option JsValue)
| Thrown (v : JsValue).

Inductive Completion (A : Type) : Type :=
| Normal (a : A)
| Throw (e : Exception).
Arguments Normal {A} a.
Arguments Throw {A} e.

Definition returns {A} (c : Completion A) : bool :=
  match c with Normal _ => true | Throw _ => false end.

(** Code that reads and writes a store of type [S] and may throw.  A throw
    keeps the store as it was when the exception was raised: JavaScript does
    not roll mutations back. *)
Definition M (S A : Type) : Type := S -> Completion A * S.

Definition ret {S A} (a : A) : M S A := fun s => (Normal a, s).

Definition throw {S A} (e : Exception) : M S A := fun s => (Throw e, s).

Definition bind {S A B} (m : M S A) (k : A -> M S B) : M S B :=
  fun s =>
    match m s with
    | (Normal a, s') => k a s'
    | (Throw e, s') => (Throw e, s')
    end.

Definition lift {S A} (c : Completion A) : M S A := fun s => (c, s).

Definition get {S} : M S S := fun s => (Normal s, s).

Definition modify {S} (f : S -> S) : M S unit := fun s => (Normal tt, f s).

(** [for (const x of xs) body(x)] *)
Fixpoint forOf {S A} (xs : list A) (body : A -> M S unit) : M S unit :=
  match xs with
  | [] => ret tt
  | x :: xs' => bind (body x) (fun _ => forOf xs' body)
  end.

End Js.
Export Js.

Declare Scope js_scope.
Delimit Scope js_scope with js.
Notation "x <- m ;; k" := (bind m (fun x => k))
  (at level 100, m at next level, right associativity) : js_scope.
Notation "m ;; k" := (bind m (fun _ => k))
  (at level 100, right associativity) : js_scope.
Open Scope js_scope.

(* ===================================================================== *)
(** ** @casl/ability, as far as the policies and the middleware use it    *)
(* ===================================================================== *)

Module Casl.

(** A rule as [defineAbility] records it: no conditions and no fields, which
    is all the source declares. *)
Record RawRule : Type := {
  action : string;
  subject : string;
  inverted : bool;
}.

Definition Ability : Type := list RawRule.

(** The calls made inside the [defineAbility] callback, in order. *)
Inductive RuleDef : Type :=
| can (action subject : string)
| cannot (action subject : string).

Definition defineAbility (defs : list RuleDef) : Ability :=
  map (fun d =>
         match d with
         | can a s => {| action := a; subject := s; inverted := false |}
         | cannot a s => {| action := a; subject := s; inverted := true |}
         end) defs.

(** A rule is relevant to [(a, subjectType)] when its action is [a] or the
    wildcard 'manage' and its subject is [subjectType] or the wildcard
    'all'. *)
Definition matches (a subjectType : string) (r : RawRule) : bool :=
  (bool_decide (action r = a) || bool_decide (action r = "manage"))
  && (bool_decide (subject r = subjectType) || bool_decide (subject r = "all")).

(** Rules defined later take priority. *)
Definition relevantRuleFor (ab : Ability) (a subjectType : string)
  : option RawRule :=
  List.find (matches a subjectType) (rev ab).

(** [ability.can(action)]: without a subject the subject type is 'all'. *)
Definition ability_can (ab : Ability) (a : string) : bool :=
  match relevantRuleFor ab a "all" with
  | Some r => negb (inverted r)
  | None => false
  end.

(** One capability query, as recorded in the trace of an authorization. *)
Record CanQuery : Type := { queried : Ability; queried_action : string }.

(** [ForbiddenError.from(ab).throwUnlessCan(a)] *)
Definition throwUnlessCan (ab : Ability) (a : string) : M (list CanQuery) unit :=
  modify (fun log => log ++ [{| queried := ab; queried_action := a |}]) ;;
  match relevantRuleFor ab a "all" with
  | Some r => if inverted r then throw (ForbiddenError a "all") else ret tt
  | None => throw (ForbiddenError a "all")
  end.

End Casl.

(* ===================================================================== *)
(** ** identity.ts                                                        *)
(* ===================================================================== *)

Module Identity.

(** [http.IncomingMessage], as far as the core reads it: the header
    dictionary and the address of the underlying connection. *)
Record IncomingMessage : Type := {
  headers : gmap string string;
  remoteAddress : option string;
}.

(** [export interface IdentitySubject {}] *)
Record IdentitySubject : Type := { }.

(** The two functions are [async]: the completion is the settlement of the
    promise they return, as an [await] observes it. *)
Definition isAuthenticated (req : IncomingMessage) : Completion bool :=
  Normal false.

Definition getSubject (req : IncomingMessage)
  : Completion (option IdentitySubject) :=
  Normal None.

End Identity.

(* ===================================================================== *)
(** ** The policies module                                                *)
(* ===================================================================== *)

Module Policies.
Import Casl Identity.

(** [IResult] is the parse result of ua-parser-js; the record is parametric
    in it. *)
Record Environment (IResult : Type) : Type := {
  ip : option string;
  userAgent : option string;
  userAgentData : IResult;
}.
Arguments ip {IResult} _.
Arguments userAgent {IResult} _.
Arguments userAgentData {IResult} _.

Record Policy (IResult : Type) : Type := {
  name : string;
  abilities : Ability;
  evaluate : option IdentitySubject -> JsValue -> Environment IResult -> bool;
}.
Arguments name {IResult} _.
Arguments abilities {IResult} _.
Arguments evaluate {IResult} _ _ _ _.

Definition policies {IResult : Type} : list (Policy IResult) :=
  [ {| name := "Guest";
       evaluate := fun subject resource environment => true;
       abilities := defineAbility [can "manage" "all"] |} ].

End Policies.

(* ===================================================================== *)
(** ** The authorization middleware                                       *)
(* ===================================================================== *)

Module Authorize.
Import Casl Identity Policies.

(** The two packages the extraction of the environment calls, with the types
    their declarations give them:
    ua-parser-js, [new UAParser(ua).getResult()] of type [IResult], where
    [None] is an absent header ([undefined]);
    request-ip, [getClientIp(req)] of type [string | null]. *)
Class Packages (IResult : Type) : Type := {
  UAParser_getResult : option string -> IResult;
  getClientIp : IncomingMessage -> option string;
}.

Section WithPackages.

Context {IResult : Type} `{Packages IResult}.

Definition getIp (req : IncomingMessage) : option string :=
  getClientIp req.

Definition getEnv (req : IncomingMessage) : Environment IResult :=
  let userAgent := headers req !! "user-agent" in
  let userAgentData := UAParser_getResult userAgent in
  let ip := getIp req in
  {| userAgentData := userAgentData;
     userAgent := userAgent;
     ip := ip |}.

(** The middleware [authorize(action)] returns, over an explicit list of
    policies; [context.req] is [req].  The store is the trace of capability
    queries made so far. *)
Definition authorizeOver (policies : list (Policy IResult)) (action : string)
  (req : IncomingMessage) (next : M (list CanQuery) unit)
  : M (list CanQuery) unit :=
  let env := getEnv req in
  subject <- lift (getSubject req) ;;
  let applicablePolicies :=
    List.filter (fun it => evaluate it subject JsNull env) policies in
  if (length applicablePolicies <? 1)%nat then
    throw (ProblemDetailsException "forbidden" "no sufficient permissions" 403)
  else
    forOf applicablePolicies
      (fun p => throwUnlessCan (abilities p) action) ;;
    next.

(** [authorize(action)], on the registered [policies]. *)
Definition authorize (action : string) (req : IncomingMessage)
  (next : M (list CanQuery) unit) : M (list CanQuery) unit :=
  authorizeOver policies action req next.

(** The applicable policies of a request: those whose [evaluate] returns
    true for the subject [getSubject] resolves, the resource [null] and the
    environment [getEnv] extracts. *)
Definition applicable (policies : list (Policy IResult))
  (req : IncomingMessage) : list (Policy IResult) :=
  match getSubject req with
  | Normal subject =>
      List.filter (fun it => evaluate it subject JsNull (getEnv req)) policies
  | Throw _ => []
  end.

(** The capability set of a policy permits an action. *)
Definition permits (action : string) (p : Policy IResult) : bool :=
  ability_can (abilities p) action.

(** The query the middleware makes of a policy. *)
Definition query_of (action : string) (p : Policy IResult) : CanQuery :=
  {| queried := abilities p; queried_action := action |}.

(** Authorization succeeds when the middleware, given a downstream that does
    nothing, completes normally. *)
Definition authorized (policies : list (Policy IResult)) (action : string)
  (req : IncomingMessage) : bool :=
  returns (fst (authorizeOver policies action req (ret tt) [])).

End WithPackages.

End Authorize.

(* ===================================================================== *)
(** ** context.ts                                                         *)
(* ===================================================================== *)

Module Context.

(** *** Node's EventEmitter and the promises of [send] *)

(** An event name is a string or a symbol. *)
Inductive EventName : Type :=
| EventString (s : string)
| EventSymbol (id : positive).

#[global] Instance EventName_eq_dec : EqDecision EventName.
Proof. solve_decision. Defined.

#[global] Instance EventName_countable : Countable EventName.
Proof.
  refine (inj_countable'
            (fun e => match e with
                      | EventString s => inl s
                      | EventSymbol i => inr i
                      end)
            (fun x => match x with
                      | inl s => EventString s
                      | inr i => EventSymbol i
                      end) _).
  intros []; reflexivity.
Defined.

(** A listener handed to [on] or [once]: it is applied to the arguments of
    the emission and returns a value or throws.  These are the synchronous
    listeners that leave the bus alone: a listener that calls [send], [on]
    or [once] of the bus it is subscribed to, or that returns a promise, is
    not among them. *)
Definition Listener : Type := list JsValue -> Completion JsValue.

(** One entry of the emitter's listener array for an event.  The function
    the bus registers is always the wrapper
    [(...args) => { const result = listener(...args); this.#execute(eventName, result); }]
    so the entry keeps the [listener] inside it; [fn] tells the registered
    functions apart and [is_once] says whether it came through
    [emitter.once]. *)
Record Registered : Type := {
  fn : nat;
  is_once : bool;
  listener : Listener;
}.

Inductive PromiseState : Type :=
| Pending
| Fulfilled (value : JsValue)
| Rejected (reason : Exception).

(** The state of a [MessageBus]: the listener arrays of [#emitter], in
    registration order, with the number of functions registered so far;
    [#pendingEventsRegistry], whose arrays hold [resolve] functions, each
    written as the index of the promise it settles; and the promises [send]
    has created, in creation order. *)
Record MessageBus : Type := {
  emitter : gmap EventName (list Registered);
  registered : nat;
  pendingEventsRegistry : gmap EventName (list nat);
  promises : list PromiseState;
}.

Definition newMessageBus : MessageBus :=
  {| emitter := ∅; registered := 0%nat;
     pendingEventsRegistry := ∅; promises := [] |}.

Definition set_emitter (f : gmap EventName (list Registered)
                            -> gmap EventName (list Registered))
  (bus : MessageBus) : MessageBus :=
  {| emitter := f (emitter bus);
     registered := registered bus;
     pendingEventsRegistry := pendingEventsRegistry bus;
     promises := promises bus |}.

Definition set_registry (f : gmap EventName (list nat)
                             -> gmap EventName (list nat))
  (bus : MessageBus) : MessageBus :=
  {| emitter := emitter bus;
     registered := registered bus;
     pendingEventsRegistry := f (pendingEventsRegistry bus);
     promises := promises bus |}.

Definition set_promises (f : list PromiseState -> list PromiseState)
  (bus : MessageBus) : MessageBus :=
  {| emitter := emitter bus;
     registered := registered bus;
     pendingEventsRegistry := pendingEventsRegistry bus;
     promises := f (promises bus) |}.

(** [emitter.listeners(type)] and the array the registry holds for an
    event, [[]] when there is none. *)
Definition listeners (bus : MessageBus) (type : EventName) : list Registered :=
  default [] (emitter bus !! type).

Definition waiters (bus : MessageBus) (eventName : EventName) : list nat :=
  default [] (pendingEventsRegistry bus !! eventName).

(** Calling the [resolve] function of promise [p]: a promise settles at most
    once, later calls do nothing. *)
Definition resolve (p : nat) (value : JsValue) (ps : list PromiseState)
  : list PromiseState :=
  match ps !! p with
  | Some Pending => <[p := Fulfilled value]> ps
  | _ => ps
  end.

(** [emitter.on(type, f)] and [emitter.once(type, f)]: append to the array
    of [type]. *)
Definition addListener (type : EventName) (once_ : bool) (l : Listener)
  : M MessageBus unit :=
  modify (fun bus =>
    let entry := {| fn := registered bus; is_once := once_; listener := l |} in
    {| emitter := <[type := listeners bus type ++ [entry]]> (emitter bus);
       registered := S (registered bus);
       pendingEventsRegistry := pendingEventsRegistry bus;
       promises := promises bus |}).

(** [emitter.removeListener(type, f)]; an event whose array becomes empty
    loses its entry. *)
Definition removeListener (type : EventName) (f : nat) : M MessageBus unit :=
  modify (set_emitter (fun events =>
    match List.filter (fun r => negb (fn r =? f)%nat)
                      (default [] (events !! type)) with
    | [] => delete type events
    | rest => <[type := rest]> events
    end)).

(** *** MessageBus *)

(** [#execute(eventName, result)] *)
Definition execute (eventName : EventName) (result : JsValue)
  : M MessageBus unit :=
  bus <- get ;;
  let resolvers := waiters bus eventName in
  forOf resolvers (fun p => modify (set_promises (resolve p result))) ;;
  modify (set_registry (delete eventName)).

(** The emitter calls one entry of the array of [type]: an entry registered
    with [once] first removes itself; then the wrapper of the bus runs the
    listener and hands its result to [#execute]. *)
Definition call (type : EventName) (args : list JsValue) (r : Registered)
  : M MessageBus unit :=
  (if is_once r then removeListener type (fn r) else ret tt) ;;
  result <- lift (listener r args) ;;
  execute type result.

(** [emitter.emit(type, ...args)]: the listeners registered at this moment
    are called in registration order, synchronously; an exception of a
    listener propagates out of [emit].  Emitting 'error' when nobody listens
    throws.  The result says whether the event had listeners. *)
Definition emit (type : EventName) (args : list JsValue)
  : M MessageBus bool :=
  bus <- get ;;
  match listeners bus type with
  | [] =>
      if bool_decide (type = EventString "error")
      then throw (UnhandledError (head args))
      else ret false
  | called => forOf called (call type args) ;; ret true
  end.

(** [send(eventName, ...args)]: the executor of the new promise runs at
    once and registers its [resolve]; the result is the promise. *)
Definition send (eventName : string) (args : list JsValue)
  : M MessageBus nat :=
  bus <- get ;;
  let result := length (promises bus) in
  modify (set_promises (fun ps => ps ++ [Pending])) ;;
  bus <- get ;;
  let resolvers := waiters bus (EventString eventName) in
  let resolvers := resolvers ++ [result] in
  modify (set_registry (<[EventString eventName := resolvers]>)) ;;
  emit (EventString eventName) args ;;
  ret result.

Definition on (eventName : EventName) (l : Listener) : M MessageBus unit :=
  addListener eventName false l.

Definition once (eventName : EventName) (l : Listener) : M MessageBus unit :=
  addListener eventName true l.

(** *** Histories of a bus *)

(** The calls a client can make on a bus. *)
Inductive Call : Type :=
| CallSend (eventName : string) (args : list JsValue)
| CallOn (eventName : EventName) (l : Listener)
| CallOnce (eventName : EventName) (l : Listener).

(** The bus after a call, whether the call returned or threw. *)
Definition after (c : Call) (bus : MessageBus) : MessageBus :=
  match c with
  | CallSend eventName args => snd (send eventName args bus)
  | CallOn eventName l => snd (on eventName l bus)
  | CallOnce eventName l => snd (once eventName l bus)
  end.

Definition afterAll (cs : list Call) (bus : MessageBus) : MessageBus :=
  foldl (fun b c => after c b) bus cs.

(** Node's emitter has events of its own: it emits 'newListener' and
    'removeListener' on itself when a listener is added or removed, and
    [events.errorMonitor] before an 'error'.  They matter only when somebody
    subscribes to them, which the histories considered here do not do: the
    definitions above are the emitter for every other use. *)
Definition errorMonitor : positive := 1%positive.

Definition internal (type : EventName) : bool :=
  bool_decide (type = EventString "newListener")
  || bool_decide (type = EventString "removeListener")
  || bool_decide (type = EventSymbol errorMonitor).

Definition ordinary (c : Call) : bool :=
  match c with
  | CallSend _ _ => true
  | CallOn eventName _ | CallOnce eventName _ => negb (internal eventName)
  end.

(** The buses a program can hold: a new one, and what ordinary calls make
    of it. *)
Inductive reachable : MessageBus -> Prop :=
| reachable_new : reachable newMessageBus
| reachable_after c bus :
    ordinary c = true -> reachable bus -> reachable (after c bus).

(** The call emits [eventName]. *)
Definition emits (eventName : string) (c : Call) : bool :=
  match c with
  | CallSend e _ => bool_decide (e = eventName)
  | _ => false
  end.

(** The call, made on [bus], emits [eventName] to at least one listener. *)
Definition answered (eventName : string) (c : Call) (bus : MessageBus) : bool :=
  emits eventName c
  && match listeners bus (EventString eventName) with
     | [] => false
     | _ :: _ => true
     end.

(** A history of ordinary calls, from [bus] on, in which no emission of
    [eventName] reaches a listener. *)
Fixpoint unanswered (eventName : string) (cs : list Call) (bus : MessageBus)
  : bool :=
  match cs with
  | [] => true
  | c :: cs' =>
      ordinary c && negb (answered eventName c bus)
      && unanswered eventName cs' (after c bus)
  end.

(** The promises after a loop of [resolve] calls. *)
Definition resolveAll (resolvers : list nat) (value : JsValue)
  (ps : list PromiseState) : list PromiseState :=
  foldl (fun ps p => resolve p value ps) ps resolvers.

(** The bus once the executor of the promise of [send] has run, before the
    emission. *)
Definition registration (eventName : string) (bus : MessageBus) : MessageBus :=
  {| emitter := emitter bus;
     registered := registered bus;
     pendingEventsRegistry :=
       <[EventString eventName :=
           waiters bus (EventString eventName) ++ [length (promises bus)]]>
         (pendingEventsRegistry bus);
     promises := promises bus ++ [Pending] |}.

(** Promise [p] is pending and registered for [eventName]. *)
Definition waiting (eventName : EventName) (p : nat) (bus : MessageBus) : Prop :=
  promises bus !! p = Some Pending /\ p ∈ waiters bus eventName.

(** The bus when the emitter has taken an entry registered with [once] off
    the array of [type], just before it runs the listener. *)
Definition detached (type : EventName) (r : Registered) (bus : MessageBus)
  : MessageBus :=
  if is_once r then snd (removeListener type (fn r) bus) else bus.

(** Every registered [resolve] belongs to a pending promise, and to one
    event only. *)
Definition well_formed (bus : MessageBus) : Prop :=
  (forall e w, w ∈ waiters bus e -> promises bus !! w = Some Pending)
  /\ (forall e1 e2 w, w ∈ waiters bus e1 -> w ∈ waiters bus e2 -> e1 = e2).

(** *** asyncLocalStorage and getContext *)

Inductive EntityManager : Type := EntityManagerRef (id : nat).

Inductive EventEmitter : Type := EventEmitterRef (id : nat).

Record AsyncContext : Type := {
  em : EntityManager;
  bus : EventEmitter;
}.

(** Code running in an asynchronous execution context reads the store that
    context carries ([None] outside every [run]) and cannot change it. *)
Definition Scoped (T A : Type) : Type := option T -> Completion A.

Definition scoped_ret {T A} (a : A) : Scoped T A := fun _ => Normal a.

Definition scoped_bind {T A B} (m : Scoped T A) (k : A -> Scoped T B)
  : Scoped T B :=
  fun store =>
    match m store with
    | Normal a => k a store
    | Throw e => Throw e
    end.

(** [asyncLocalStorage.getStore()] *)
Definition getStore {T} : Scoped T (option T) := fun store => Normal store.

(** [asyncLocalStorage.run(store, callback)]: the callback and everything it
    triggers see [store]; the caller's store is untouched. *)
Definition run {T A} (store : T) (callback : Scoped T A) : Scoped T A :=
  fun _ => callback (Some store).

Definition getContext : Scoped AsyncContext AsyncContext :=
  scoped_bind getStore (fun store =>
    match store with
    | None => fun _ => Throw (JsError "Context not found")
    | Some store => scoped_ret store
    end).

End Context.

(* ===================================================================== *)
(** ** Concrete requests, policies and buses                              *)
(* ===================================================================== *)

Module Scenarios.
Import Casl Identity Policies Authorize Context.

(** Stand-ins for the two packages on the request below.  The parse result
    keeps the header and what a parser that knows curl only makes of it; the
    client address is the address of the connection, the request carrying
    no forwarding header. *)
Record UAResult : Type := {
  ua : string;
  recognised : list (string * string);
}.

Definition recogniseCurl (s : string) : list (string * string) :=
  if String.prefix "curl/" s then [("browser", "curl")] else [].

Definition parseCurl (header : option string) : UAResult :=
  match header with
  | None => {| ua := ""; recognised := [] |}
  | Some s => {| ua := s; recognised := recogniseCurl s |}
  end.

#[global] Instance curlPackages : Packages UAResult :=
  {| UAParser_getResult := parseCurl; getClientIp := remoteAddress |}.

Definition curlRequest : IncomingMessage :=
  {| headers := {[ "user-agent" := "curl/8.5.0" ]};
     remoteAddress := Some "203.0.113.7" |}.

(** A guest that may read and may not delete. *)
Definition readOnlyGuest : Policy UAResult :=
  {| name := "Guest";
     evaluate := fun subject resource environment => true;
     abilities := defineAbility [can "read" "all"; cannot "delete" "all"] |}.

(** A policy for requests with a known address that allows everything. *)
Definition knownAddress : Policy UAResult :=
  {| name := "KnownAddress";
     evaluate := fun subject resource environment =>
                   bool_decide (ip environment <> None);
     abilities := defineAbility [can "manage" "all"] |}.

(** A policy for authenticated subjects only. *)
Definition membersOnly : Policy UAResult :=
  {| name := "Member";
     evaluate := fun subject resource environment =>
                   bool_decide (subject <> None);
     abilities := defineAbility [can "manage" "all"] |}.

(** Listeners: one that answers "pong", one that echoes its first argument,
    one that throws. *)
Definition pong : Listener := fun _ => Normal (JsString "pong").

Definition echo : Listener := fun args => Normal (default JsUndefined (head args)).


(** Two callers wait for "ping" before anybody listens; then [pong]
    subscribes. *)
Definition twoWaiting : MessageBus :=
  afterAll [CallSend "ping" []; CallSend "ping" []; CallOn (EventString "ping") pong]
    newMessageBus.

(** A bus whose only subscriber to "ping" is registered with [once]. *)
Definition pongOnce : MessageBus :=
  afterAll [CallOnce (EventString "ping") pong] newMessageBus.


(** The entry the emitter holds for the first function registered on a
    bus. *)
Definition firstRegistered (once_ : bool) (l : Listener) : Registered :=
  {| fn := 0; is_once := once_; listener := l |}.

End Scenarios.

(* ===================================================================== *)
(** ** More of the message bus: the registry                               *)
(* ===================================================================== *)

Module Subscriptions.
Import Context.

(** No array of the registry holds a [resolve] twice, and the registry
    holds no empty array. *)
Definition tidy (bus : MessageBus) : Prop :=
  (forall e, NoDup (waiters bus e))
  /\ forall e ws, pendingEventsRegistry bus !! e = Some ws -> ws <> [].

(** The calls [send(eventName, ...args)] for each [args] of a list. *)
Definition sends (eventName : string) (argss : list (list JsValue)) : list Call :=
  map (CallSend eventName) argss.

End Subscriptions.

(* ===================================================================== *)
(** ** orm/execute.ts                                                     *)
(* ===================================================================== *)

Module Orm.
Import Context.

(** [try { body } catch (error) { handler(error) }] *)
Definition tryCatch {S A} (body : M S A) (handler : Exception -> M S A)
  : M S A :=
  fun s =>
    match body s with
    | (Normal a, s') => (Normal a, s')
    | (Throw error, s') => handler error s'
    end.

(** The calls [useTransaction] makes, in the order it makes them; the store
    of the code is the list of the calls made so far. *)
Inductive RunnerCall : Type :=
| Connect
| StartTransaction
| Computation
| CommitTransaction
| RollbackTransaction
| Release.

(** The query runner [dataSource.createQueryRunner()] returns, of typeorm:
    its manager, and how each of its calls completes when [useTransaction]
    makes it (each is made at most once). *)
Record QueryRunner : Type := {
  manager : EntityManager;
  connect : Completion unit;
  startTransaction : Completion unit;
  commitTransaction : Completion unit;
  rollbackTransaction : Completion unit;
  release : Completion unit;
}.

(** One awaited call: it is recorded, then it completes. *)
Definition awaited {A} (c : RunnerCall) (completion : Completion A)
  : M (list RunnerCall) A :=
  fun calls => (completion, calls ++ [c]).

Definition useTransaction {TResult} (queryRunner : QueryRunner)
  (computation : EntityManager -> Completion TResult)
  : M (list RunnerCall) TResult :=
  awaited Connect (connect queryRunner) ;;
  awaited StartTransaction (startTransaction queryRunner) ;;
  tryCatch
    (result <- awaited Computation (computation (manager queryRunner)) ;;
     awaited CommitTransaction (commitTransaction queryRunner) ;;
     ret result)
    (fun error =>
       awaited RollbackTransaction (rollbackTransaction queryRunner) ;;
       awaited Release (release queryRunner) ;;
       throw error).

(** The transaction was started: the connection and the start of the
    transaction both returned. *)
Definition started (queryRunner : QueryRunner) : Prop :=
  connect queryRunner = Normal tt /\ startTransaction queryRunner = Normal tt.

(** The body of the [try] threw [error]: the computation did, or the
    computation returned and the commit threw. *)
Definition body_threw {TResult} (queryRunner : QueryRunner)
  (computation : EntityManager -> Completion TResult) (error : Exception)
  : Prop :=
  computation (manager queryRunner) = Throw error
  \/ ((exists result, computation (manager queryRunner) = Normal result)
      /\ commitTransaction queryRunner = Throw error).

(** What [qb.getRawAndEntities()] resolves to. *)
Record RawAndEntities (U Raw : Type) : Type := {
  entities : list U;
  raw : list Raw;
}.
Arguments entities {U Raw} _.
Arguments raw {U Raw} _.

(** A mapper of the pipeline; the raw row is [undefined] ([None]) when the
    raw results have no row at the index of the entity. *)
Definition ExecutePipeline (U Raw : Type) : Type :=
  U -> option Raw -> Completion U.

(** [mappers.reduce((acc, mapper) => mapper(acc, rawEntity), entity)] *)
Fixpoint reduce {U Raw} (mappers : list (ExecutePipeline U Raw)) (acc : U)
  (rawEntity : option Raw) : Completion U :=
  match mappers with
  | [] => Normal acc
  | mapper :: rest =>
      match mapper acc rawEntity with
      | Normal acc' => reduce rest acc' rawEntity
      | Throw e => Throw e
      end
  end.

(** [entities.map((entity, index) => f(entity, index))], from [index] on;
    the first exception ends the loop. *)
Fixpoint mapFrom {U} (index : nat) (entities : list U)
  (f : U -> nat -> Completion U) : Completion (list U) :=
  match entities with
  | [] => Normal []
  | entity :: rest =>
      match f entity index with
      | Normal mapped =>
          match mapFrom (S index) rest f with
          | Normal others => Normal (mapped :: others)
          | Throw e => Throw e
          end
      | Throw e => Throw e
      end
  end.

(** [execute(qb, ...mappers)]; [qb] is the completion of
    [await qb.getRawAndEntities()]. *)
Definition execute {U Raw} (qb : Completion (RawAndEntities U Raw))
  (mappers : list (ExecutePipeline U Raw)) : Completion (list U) :=
  match qb with
  | Throw e => Throw e
  | Normal result =>
      mapFrom 0 (entities result)
        (fun entity index => reduce mappers entity (raw result !! index))
  end.

End Orm.

(* ===================================================================== *)
(** ** shared/pagination.ts                                               *)
(* ===================================================================== *)

Module Pagination.

(** The own enumerable properties of an object, in the order [Object.keys]
    lists them. *)
Definition Entries : Type := list (string * JsValue).

(** The fields of a [Pagination]. *)
Record Pagination : Type := {
  page : option JsValue;
  size : option JsValue;
  order : option Entries;
}.

(** [acc[key] = value] on a plain object, for a string [value]: every key
    becomes an own property but '__proto__', whose setter ignores a value
    that is neither an object nor [null].  The object is kept as the map of
    its own properties. *)
Definition assign (acc : gmap string string) (key value : string)
  : gmap string string :=
  if bool_decide (key = "__proto__") then acc else <[key := value]> acc.

Section WithToUpperCase.

(** [String.prototype.toUpperCase] *)
Context (toUpperCase : string -> string).

(** The [reduce] of [getOrder] over the keys of [this.order], from the
    accumulator [acc].  [None] is the [TypeError] of calling [toUpperCase]
    on a value that is not a string. *)
Fixpoint reduceOrder (entries : Entries) (acc : gmap string string)
  : option (gmap string string) :=
  match entries with
  | [] => Some acc
  | (key, value) :: rest =>
      match value with
      | JsString s =>
          let direction := toUpperCase s in
          if bool_decide (direction ∈ ["DESC"; "ASC"])
          then reduceOrder rest (assign acc key (toUpperCase s))
          else reduceOrder rest acc
      | _ => None
      end
  end.

Definition getOrder (p : Pagination) : option (gmap string string) :=
  match order p with
  | Some entries => reduceOrder entries ∅
  | None => Some ∅
  end.

(** The direction [toUpperCase s] is one [getOrder] keeps. *)
Definition kept (s : string) : bool :=
  bool_decide (toUpperCase s ∈ ["DESC"; "ASC"]).

End WithToUpperCase.

(** The value of a property is a string. *)
Definition is_string (v : JsValue) : bool :=
  match v with JsString _ => true | _ => false end.

End Pagination.

(* ===================================================================== *)
(** ** file-manager.ts                                                    *)
(* ===================================================================== *)

Module FileManager.
Import Stdlib.Strings.Ascii.

Inductive Kind : Type := folder | image | document | other.

(** What [typeToKindMap[value]] can be: a kind, or, the map being a plain
    object, a member of [Object.prototype] when [value] names one. *)
Inductive KindValue : Type :=
| KindOf (kind : Kind)
| PrototypeMember (name : string).

Definition typeToKindMap : gmap string Kind :=
  {[ "png" := image; "jpeg" := image; "pdf" := document ]}.

(** The property names of [Object.prototype]. *)
Definition objectPrototype : list string :=
  [ "constructor"; "__defineGetter__"; "__defineSetter__"; "hasOwnProperty";
    "__lookupGetter__"; "__lookupSetter__"; "isPrototypeOf";
    "propertyIsEnumerable"; "toString"; "valueOf"; "__proto__";
    "toLocaleString" ].

Definition getKindByType (value : string) : KindValue :=
  match typeToKindMap !! value with
  | Some kind => KindOf kind
  | None =>
      if bool_decide (value ∈ objectPrototype)
      then PrototypeMember value
      else KindOf other
  end.

(** [s.includes(c)] for a character [c]. *)
Fixpoint includes (c : Ascii.ascii) (s : string) : bool :=
  match s with
  | EmptyString => false
  | String c' rest => bool_decide (c' = c) || includes c rest
  end.

(** [s.split(c).pop()] for a character [c]: what follows the last [c], the
    whole string when there is none. *)
Fixpoint splitPop (c : Ascii.ascii) (s : string) : string :=
  match s with
  | EmptyString => EmptyString
  | String c' rest =>
      if includes c rest then splitPop c rest
      else if bool_decide (c' = c) then rest
      else String c' rest
  end.

(** [s.endsWith(c)] for a character [c]. *)
Fixpoint endsWith (c : Ascii.ascii) (s : string) : bool :=
  match s with
  | EmptyString => false
  | String c' EmptyString => bool_decide (c' = c)
  | String _ rest => endsWith c rest
  end.

Record Metadata : Type := {
  timeCreated : string;
  updated : string;
  metadata_size : string;
}.

(** A file of the bucket, as [listPublicLinks] reads it; [publicUrl] is the
    result of [file.publicUrl()]. *)
Record File : Type := {
  file_name : string;
  publicUrl : string;
  metadata : Metadata;
}.

Record FFile : Type := {
  kind : KindValue;
  name : string;
  link : string;
  ext : string;
  isFolder : bool;
  size : string;
  updatedAt : string;
  createdAt : string;
}.

(** The entry [listPublicLinks] pushes for one file. *)
Definition publicLink (file : File) : FFile :=
  let link := publicUrl file in
  let ext := splitPop "."%char link in
  {| ext := ext;
     link := link;
     name := file_name file;
     kind := if endsWith "/"%char (file_name file)
             then KindOf folder else getKindByType ext;
     isFolder := endsWith "/"%char (file_name file);
     createdAt := timeCreated (metadata file);
     updatedAt := updated (metadata file);
     size := metadata_size (metadata file) |}.

(** [listPublicLinks(options)]; [files] is the completion of
    [await this._bucket.getFiles(options)]. *)
Definition listPublicLinks (files : Completion (list File))
  : Completion (list FFile) :=
  match files with
  | Throw e => Throw e
  | Normal files => Normal (map publicLink files)
  end.

End FileManager.

(* ===================================================================== *)
(** ** More concrete inputs                                               *)
(* ===================================================================== *)

Module MoreScenarios.
Import Context Orm Pagination FileManager.

(** A query runner whose calls all return. *)
Definition healthyRunner : QueryRunner :=
  {| manager := EntityManagerRef 0;
     connect := Normal tt;
     startTransaction := Normal tt;
     commitTransaction := Normal tt;
     rollbackTransaction := Normal tt;
     release := Normal tt |}.

(** A query runner that cannot connect. *)
Definition offlineRunner : QueryRunner :=
  {| manager := EntityManagerRef 0;
     connect := Throw (JsError "connection refused");
     startTransaction := Normal tt;
     commitTransaction := Normal tt;
     rollbackTransaction := Normal tt;
     release := Normal tt |}.

(** A query runner whose rollback fails. *)
Definition stuckRunner : QueryRunner :=
  {| manager := EntityManagerRef 0;
     connect := Normal tt;
     startTransaction := Normal tt;
     commitTransaction := Normal tt;
     rollbackTransaction := Throw (JsError "rollback failed");
     release := Normal tt |}.

Definition savesUser (manager : EntityManager) : Completion string :=
  Normal "user".

Definition goesWrong (manager : EntityManager) : Completion string :=
  Throw (JsError "Something went wrong").

(** Entities are numbers, raw rows are strings; one mapper adds the length
    of the raw row, one doubles, one refuses odd numbers. *)
Definition addRawLength : ExecutePipeline Z string :=
  fun entity rawEntity =>
    match rawEntity with
    | Some row => Normal (entity + Z.of_nat (String.length row))
    | None => Throw (JsError "Cannot read properties of undefined")
    end.

Definition double : ExecutePipeline Z string :=
  fun entity _ => Normal (2 * entity).

Definition threeRows : Completion (RawAndEntities Z string) :=
  Normal {| entities := [10; 20; 30]; raw := ["a"; "bb"; "ccc"] |}.

(** An upper-casing of the ASCII letters. *)
Fixpoint asciiUpper (s : string) : string :=
  match s with
  | EmptyString => EmptyString
  | String c rest =>
      let n := Ascii.nat_of_ascii c in
      String
        (if ((97 <=? n) && (n <=? 122))%nat
         then Ascii.ascii_of_nat (n - 32) else c)
        (asciiUpper rest)
  end.

Definition sortedQuery : Pagination.Pagination :=
  {| Pagination.page := Some (JsString "2");
     Pagination.size := Some (JsString "10");
     Pagination.order := Some [("name", JsString "asc"); ("age", JsString "Desc");
                    ("id", JsString "sideways"); ("__proto__", JsString "ASC")] |}.

Definition brokenQuery : Pagination.Pagination :=
  {| Pagination.page := None;
     Pagination.size := None;
     Pagination.order := Some [("name", JsString "asc"); ("age", JsNumber 1)] |}.

Definition photo : File :=
  {| file_name := "albums/2024/cat.png";
     publicUrl := "https://storage.googleapis.com/bucket/albums%2F2024%2Fcat.png";
     metadata := {| timeCreated := "2024-01-01T00:00:00.000Z";
                    updated := "2024-01-02T00:00:00.000Z";
                    metadata_size := "1024" |} |}.

Definition album : File :=
  {| file_name := "albums/2024/";
     publicUrl := "https://storage.googleapis.com/bucket/albums%2F2024%2F";
     metadata := {| timeCreated := "2024-01-01T00:00:00.000Z";
                    updated := "2024-01-01T00:00:00.000Z";
                    metadata_size := "0" |} |}.

End MoreScenarios.

(* ===================================================================== *)
(** * Properties                                                          *)
(* ===================================================================== *)

(** ** Sequencing *)

Lemma bind_normal {S A B} (m : M S A) (k : A -> M S B) s a s' :
  m s = (Normal a, s') -> bind m k s = k a s'.
Proof. unfold bind. by intros ->. Qed.

Lemma bind_throw {S A B} (m : M S A) (k : A -> M S B) s e s' :
  m s = (Throw e, s') -> bind m k s = (Throw e, s').
Proof. unfold bind. by intros ->. Qed.

(** ** Authorization *)

Section AuthorizationFacts.
Import Casl Identity Policies Authorize.

Context {IResult : Type} `{Packages IResult}.

Lemma throwUnlessCan_permitted ab a log :
  ability_can ab a = true ->
  throwUnlessCan ab a log
  = (Normal tt, log ++ [{| queried := ab; queried_action := a |}]).
Proof.
  unfold ability_can, throwUnlessCan, bind, modify, ret, throw.
  destruct (relevantRuleFor ab a "all") as [r|]; [|discriminate].
  destruct (inverted r); [discriminate|reflexivity].
Qed.

Lemma throwUnlessCan_denied ab a log :
  ability_can ab a = false ->
  throwUnlessCan ab a log
  = (Throw (ForbiddenError a "all"),
     log ++ [{| queried := ab; queried_action := a |}]).
Proof.
  unfold ability_can, throwUnlessCan, bind, modify, ret, throw.
  destruct (relevantRuleFor ab a "all") as [r|]; [|reflexivity].
  destruct (inverted r); [reflexivity|discriminate].
Qed.

(** The loop over the applicable policies: it runs to its end exactly when
    every policy permits the action, and then it has queried each of them
    once, in order. *)
Lemma loop_all_permit (qs : list (Policy IResult)) action log :
  forallb (permits action) qs = true ->
  forOf qs (fun p => throwUnlessCan (abilities p) action) log
  = (Normal tt, log ++ map (query_of action) qs).
Proof.
  revert log. induction qs as [|q qs IH]; intros log Hall; simpl.
  - unfold ret. by rewrite app_nil_r.
  - simpl in Hall. apply andb_prop in Hall as [Hq Hqs].
    unfold bind at 1. rewrite (throwUnlessCan_permitted _ _ _ Hq).
    rewrite IH by done. by rewrite <- app_assoc.
Qed.

Lemma loop_some_denies (qs : list (Policy IResult)) action log :
  forallb (permits action) qs = false ->
  exists log',
    forOf qs (fun p => throwUnlessCan (abilities p) action) log
    = (Throw (ForbiddenError action "all"), log').
Proof.
  revert log. induction qs as [|q qs IH]; intros log Hall; simpl in *.
  - discriminate.
  - unfold bind at 1. destruct (permits action q) eqn:Hq.
    + rewrite (throwUnlessCan_permitted _ _ _ Hq). apply IH. exact Hall.
    + rewrite (throwUnlessCan_denied _ _ _ Hq). eauto.
Qed.

(** The middleware in terms of the applicable policies. *)
Lemma authorizeOver_applicable ps action req next log :
  authorizeOver ps action req next log
  = (if (length (applicable ps req) <? 1)%nat
     then throw (ProblemDetailsException
                   "forbidden" "no sufficient permissions" 403)
     else forOf (applicable ps req)
            (fun p => throwUnlessCan (abilities p) action) ;; next) log.
Proof. reflexivity. Qed.

(** What the middleware does, by cases on the applicable policies. *)
Lemma authorizeOver_cases ps action req next log :
  match applicable ps req with
  | [] =>
      authorizeOver ps action req next log
      = (Throw (ProblemDetailsException
                  "forbidden" "no sufficient permissions" 403), log)
  | Q =>
      if forallb (permits action) Q
      then authorizeOver ps action req next log
           = next (log ++ map (query_of action) Q)
      else exists log',
             authorizeOver ps action req next log
             = (Throw (ForbiddenError action "all"), log')
  end.
Proof.
  rewrite authorizeOver_applicable.
  destruct (applicable ps req) as [|q Q']; [reflexivity|].
  cbv beta iota zeta. change (length (q :: Q') <? 1)%nat with false. cbv iota.
  destruct (forallb (permits action) (q :: Q')) eqn:Hall.
  - apply bind_normal with (a := tt). by apply loop_all_permit.
  - destruct (loop_some_denies _ _ log Hall) as [log' Hloop].
    exists log'. by apply bind_throw.
Qed.

(** Authorization succeeds exactly when the middleware hands over to the
    downstream, whatever the downstream is. *)
Lemma authorized_runs_next ps action req :
  authorized ps action req = true <->
  forall next log, exists log', authorizeOver ps action req next log = next log'.
Proof.
  unfold authorized. split.
  - intros Hok next log.
    pose proof (authorizeOver_cases ps action req (ret tt) []) as H0.
    pose proof (authorizeOver_cases ps action req next log) as H1.
    destruct (applicable ps req) as [|q Q'].
    + rewrite H0 in Hok. discriminate.
    + cbv beta iota zeta in H0, H1.
      destruct (forallb (permits action) (q :: Q')); [eauto|].
      destruct H0 as [log' H0]. rewrite H0 in Hok. discriminate.
  - intros Hnext. destruct (Hnext (ret tt) []) as [log' ->]. reflexivity.
Qed.

(** C1. When the applicable policies of a request are not empty,
    authorization succeeds if and only if the capability set of every
    applicable policy permits the action; one applicable policy that denies
    the action makes authorization fail, whatever the others allow. *)
Theorem authorize_unanimous ps action req :
  applicable ps req <> [] ->
  (authorized ps action req = true <->
   forall p, In p (applicable ps req) -> permits action p = true)
  /\ (forall p, In p (applicable ps req) -> permits action p = false ->
      authorized ps action req = false
      /\ forall next log, exists log',
           authorizeOver ps action req next log
           = (Throw (ForbiddenError action "all"), log')).
Proof.
  intros Hne.
  assert (Hcases : forall next log,
    if forallb (permits action) (applicable ps req)
    then authorizeOver ps action req next log
         = next (log ++ map (query_of action) (applicable ps req))
    else exists log', authorizeOver ps action req next log
                      = (Throw (ForbiddenError action "all"), log')).
  { intros next log.
    pose proof (authorizeOver_cases ps action req next log) as Hc.
    destruct (applicable ps req); [done|exact Hc]. }
  split.
  - rewrite <- forallb_forall.
    unfold authorized. specialize (Hcases (ret tt) []).
    destruct (forallb (permits action) (applicable ps req)).
    + rewrite Hcases. done.
    + destruct Hcases as [log' ->]. done.
  - intros p Hin Hdeny.
    assert (Hall : forallb (permits action) (applicable ps req) = false).
    { apply not_true_is_false. intros Hall.
      rewrite forallb_forall in Hall. specialize (Hall p Hin). congruence. }
    split.
    + unfold authorized. specialize (Hcases (ret tt) []).
      rewrite Hall in Hcases. destruct Hcases as [log' ->]. done.
    + intros next log. specialize (Hcases next log).
      by rewrite Hall in Hcases.
Qed.

Lemma applicable_none ps req :
  (forall p subject,
     In p ps -> getSubject req = Normal subject ->
     evaluate p subject JsNull (getEnv req) = false) ->
  applicable ps req = [].
Proof.
  unfold applicable. simpl.
  induction ps as [|p ps IH]; intros Hnone; [reflexivity|]. simpl.
  rewrite (Hnone p None) by (simpl; auto). apply IH.
  intros p' subject Hin. apply Hnone. by right.
Qed.

(** C2. If no registered policy evaluates to true for the subject, the
    resource and the environment of the request, the middleware throws the
    403 problem 'forbidden' / 'no sufficient permissions' at once: the
    downstream does not run and no capability set has been queried (the
    trace of queries is as it was). *)
Theorem authorize_no_applicable_policy ps action req next log :
  (forall p subject,
     In p ps -> getSubject req = Normal subject ->
     evaluate p subject JsNull (getEnv req) = false) ->
  authorizeOver ps action req next log
  = (Throw (ProblemDetailsException
              "forbidden" "no sufficient permissions" 403), log).
Proof.
  intros Hnone.
  pose proof (authorizeOver_cases ps action req next log) as Hc.
  by rewrite (applicable_none ps req Hnone) in Hc.
Qed.

(** 'manage' on 'all' permits every action. *)
Lemma manage_all_permits (a : string) :
  ability_can (defineAbility [can "manage" "all"]) a = true.
Proof.
  unfold ability_can, relevantRuleFor. simpl. unfold matches. simpl.
  by rewrite orb_true_r.
Qed.

(** C10. With the registered policies (the single 'Guest' policy, which
    always applies and whose abilities are manage-all) the middleware hands
    over to the downstream for every action and every request, after one
    capability query: neither the 403 problem nor CASL's forbidden error is
    thrown. *)
Theorem authorize_registered_policies action req next log :
  authorize action req next log
  = next (log ++ [{| queried := defineAbility [can "manage" "all"];
                     queried_action := action |}])
  /\ authorized policies action req = true.
Proof.
  assert (Hnext : forall next log,
            authorize action req next log
            = next (log ++ [{| queried := defineAbility [can "manage" "all"];
                               queried_action := action |}])).
  { intros next' log'. unfold authorize.
    pose proof (authorizeOver_cases policies action req next' log') as Hc.
    change (applicable policies req) with (@policies IResult) in Hc.
    unfold policies in Hc. cbv beta iota zeta in Hc.
    unfold forallb, permits in Hc. simpl abilities in Hc.
    rewrite manage_all_permits in Hc. exact Hc. }
  split; [apply Hnext|].
  unfold authorized. fold (authorize action req (ret tt) []).
  by rewrite Hnext.
Qed.

(** C9. The identity resolver that ships resolves, for every request, to no
    subject, and does not throw; no request is authenticated. *)
Theorem getSubject_anonymous req :
  getSubject req = Normal None /\ isAuthenticated req = Normal false.
Proof. split; reflexivity. Qed.

End AuthorizationFacts.

Section AuthorizationScenarios.
Import Casl Identity Policies Authorize.

(** The two-policy set [readOnlyGuest; knownAddress] on a request with an
    address: both are applicable, and 'delete' is refused by the first
    although the second allows it. *)
Lemma authorize_unanimous_witness :
  (authorized [Scenarios.readOnlyGuest; Scenarios.knownAddress]
     "delete" Scenarios.curlRequest = true <->
   forall p,
     In p (applicable [Scenarios.readOnlyGuest; Scenarios.knownAddress]
             Scenarios.curlRequest) ->
     permits "delete" p = true)
  /\ authorized [Scenarios.readOnlyGuest; Scenarios.knownAddress]
       "delete" Scenarios.curlRequest = false
  /\ permits "delete" Scenarios.knownAddress = true.
Proof.
  pose proof (authorize_unanimous
                [Scenarios.readOnlyGuest; Scenarios.knownAddress]
                "delete" Scenarios.curlRequest) as Hthm.
  destruct Hthm as [Hiff Hveto]; [vm_compute; discriminate|].
  split; [exact Hiff|]. split; [|reflexivity].
  apply (Hveto Scenarios.readOnlyGuest).
  - vm_compute. left. reflexivity.
  - reflexivity.
Defined.

(** The members-only policy on an anonymous request, and the empty policy
    set. *)
Lemma authorize_no_applicable_policy_witness :
  authorizeOver [Scenarios.membersOnly] "read" Scenarios.curlRequest
    (ret tt) []
  = (Throw (ProblemDetailsException
              "forbidden" "no sufficient permissions" 403), []).
Proof.
  apply (authorize_no_applicable_policy [Scenarios.membersOnly]).
  intros p subject [<-|[]] Hsubject.
  injection Hsubject as <-. reflexivity.
Defined.

End AuthorizationScenarios.

(** ** The execution context store *)

Section ContextStoreFacts.
Import Context.

(** C3. Outside every [run] scope [getContext] throws
    [Error('Context not found')], on every call, also once a scope has been
    left; inside a scope it returns the context the scope was entered with,
    the innermost one when scopes nest. *)
Theorem getContext_scope :
  getContext None = Throw (JsError "Context not found")
  /\ (forall context,
        scoped_bind (run context getContext) (fun _ => getContext) None
        = Throw (JsError "Context not found"))
  /\ (forall context outer, run context getContext outer = Normal context)
  /\ (forall inner context outer,
        run context (run inner getContext) outer = Normal inner
        /\ run context
             (scoped_bind (run inner getContext) (fun _ => getContext)) outer
           = Normal context).
Proof. repeat split. Qed.

End ContextStoreFacts.

(** ** The message bus *)

Section MessageBusFacts.
Import Context.

Implicit Types (bus : MessageBus) (ps : list PromiseState) (p w : nat).
Implicit Types (e : EventName) (r : Registered) (args : list JsValue).

(** *** Promises *)

Lemma length_resolve p v ps : length (resolve p v ps) = length ps.
Proof.
  unfold resolve. destruct (ps !! p) as [[]|]; try done.
  by rewrite length_insert.
Qed.

Lemma lookup_resolve p v ps w :
  resolve p v ps !! w
  = if decide (w = p)
    then match ps !! w with
         | Some Pending => Some (Fulfilled v)
         | o => o
         end
    else ps !! w.
Proof.
  unfold resolve. destruct (decide (w = p)) as [->|Hne].
  - destruct (ps !! p) as [[]|] eqn:Hp; try done.
    apply list_lookup_insert_eq. by eapply lookup_lt_Some.
  - destruct (ps !! p) as [[]|]; try done.
    by apply list_lookup_insert_ne.
Qed.

Lemma length_resolveAll ws v ps : length (resolveAll ws v ps) = length ps.
Proof.
  unfold resolveAll. revert ps.
  induction ws as [|w ws IH]; intros ps; simpl; [done|].
  by rewrite IH, length_resolve.
Qed.

Lemma lookup_resolveAll ws v ps w :
  resolveAll ws v ps !! w
  = if decide (w ∈ ws)
    then match ps !! w with
         | Some Pending => Some (Fulfilled v)
         | o => o
         end
    else ps !! w.
Proof.
  unfold resolveAll. revert ps.
  induction ws as [|w' ws IH]; intros ps; simpl.
  - destruct (decide (w ∈ [])) as [Hin|]; [|done]. by apply elem_of_nil in Hin.
  - rewrite IH, lookup_resolve. destruct (decide (w = w')) as [->|Hne].
    + rewrite (decide_True (P := w' ∈ w' :: ws)) by set_solver.
      destruct (decide (w' ∈ ws)); by destruct (ps !! w') as [[]|].
    + destruct (decide (w ∈ ws)).
      * by rewrite (decide_True (P := w ∈ w' :: ws)) by set_solver.
      * rewrite (decide_False (P := w ∈ w' :: ws)); [done|].
        intros [?|?]%elem_of_cons; done.
Qed.

Lemma resolveAll_pending ws v ps w :
  w ∈ ws -> ps !! w = Some Pending ->
  resolveAll ws v ps !! w = Some (Fulfilled v).
Proof.
  intros Hin Hp. rewrite lookup_resolveAll, Hp. by rewrite decide_True.
Qed.

Lemma resolveAll_other ws v ps w :
  w ∉ ws -> resolveAll ws v ps !! w = ps !! w.
Proof. intros Hnin. rewrite lookup_resolveAll. by rewrite decide_False. Qed.

(** A loop of [resolve] calls never rejects a promise and never changes a
    settled one. *)
Lemma resolveAll_settled ws v ps w :
  ps !! w <> Some Pending -> resolveAll ws v ps !! w = ps !! w.
Proof.
  intros Hp. rewrite lookup_resolveAll.
  destruct (decide (w ∈ ws)); [|done]. by destruct (ps !! w) as [[]|].
Qed.

(** *** The steps of an emission *)

Lemma forOf_modify {S A} (xs : list A) (f : A -> S -> S) (s : S) :
  forOf xs (fun x => modify (f x)) s = (Normal tt, foldl (fun s x => f x s) s xs).
Proof.
  revert s. induction xs as [|x xs IH]; intros s; simpl; [done|].
  unfold bind, modify at 1. apply IH.
Qed.

Lemma foldl_set_promises ws v bus :
  foldl (fun b p => set_promises (resolve p v) b) bus ws
  = set_promises (resolveAll ws v) bus.
Proof.
  unfold resolveAll. revert bus.
  induction ws as [|w ws IH]; intros bus; simpl.
  - by destruct bus.
  - by rewrite IH.
Qed.

(** [#execute] resolves every waiter of the event with the result and
    deletes the entry of the event. *)
Lemma execute_eq e v bus :
  execute e v bus
  = (Normal tt,
     set_registry (delete e) (set_promises (resolveAll (waiters bus e) v) bus)).
Proof.
  unfold execute, get. unfold bind at 1. unfold bind.
  rewrite forOf_modify, foldl_set_promises. reflexivity.
Qed.

Lemma detached_registry e r bus :
  pendingEventsRegistry (detached e r bus) = pendingEventsRegistry bus.
Proof. unfold detached. by destruct (is_once r). Qed.

Lemma detached_promises e r bus :
  promises (detached e r bus) = promises bus.
Proof. unfold detached. by destruct (is_once r). Qed.

Lemma detached_waiters e r bus e' :
  waiters (detached e r bus) e' = waiters bus e'.
Proof. unfold waiters. by rewrite detached_registry. Qed.

Lemma call_returns e args r bus v :
  listener r args = Normal v ->
  call e args r bus
  = (Normal tt,
     set_registry (delete e)
       (set_promises (resolveAll (waiters bus e) v) (detached e r bus))).
Proof.
  intros Hv. unfold call, detached, lift. rewrite Hv.
  destruct (is_once r); unfold bind, removeListener, modify, ret; simpl;
    by rewrite execute_eq.
Qed.

Lemma call_throws e args r bus x :
  listener r args = Throw x ->
  call e args r bus = (Throw x, detached e r bus).
Proof.
  intros Hx. unfold call, detached, lift. rewrite Hx.
  by destruct (is_once r).
Qed.

Lemma emit_listeners e args bus r rs :
  listeners bus e = r :: rs ->
  emit e args bus = (forOf (r :: rs) (call e args) ;; ret true) bus.
Proof. intros Hl. unfold emit, get. unfold bind at 1. by rewrite Hl. Qed.

Lemma emit_no_listener e args bus :
  listeners bus e = [] -> e <> EventString "error" ->
  emit e args bus = (Normal false, bus).
Proof.
  intros Hl Hne. unfold emit, get. unfold bind at 1. rewrite Hl.
  by rewrite bool_decide_eq_false_2.
Qed.

Lemma emit_unheard e args bus :
  listeners bus e = [] -> snd (emit e args bus) = bus.
Proof.
  intros Hl. unfold emit, get. unfold bind at 1. rewrite Hl.
  by destruct (bool_decide _).
Qed.

Lemma emit_error_unhandled args bus :
  listeners bus (EventString "error") = [] ->
  emit (EventString "error") args bus = (Throw (UnhandledError (head args)), bus).
Proof. intros Hl. unfold emit, get. unfold bind at 1. by rewrite Hl. Qed.

Lemma send_registration eventName args bus :
  send eventName args bus
  = (emit (EventString eventName) args ;; ret (length (promises bus)))
      (registration eventName bus).
Proof. reflexivity. Qed.

(** *** Generic invariants of sequenced code *)

Lemma bind_invariant {S A B} (I : S -> Prop) (m : M S A) (k : A -> M S B) s :
  I (snd (m s)) -> (forall a s', I s' -> I (snd (k a s'))) ->
  I (snd (bind m k s)).
Proof.
  unfold bind. destruct (m s) as [[a|x] s']; simpl; [|done].
  intros Hs' Hk. by apply Hk.
Qed.

Lemma forOf_invariant {S A} (I : S -> Prop) (xs : list A) (body : A -> M S unit) :
  (forall x s, x ∈ xs -> I s -> I (snd (body x s))) ->
  forall s, I s -> I (snd (forOf xs body s)).
Proof.
  induction xs as [|x xs IH]; intros Hbody s Hs; simpl; [done|].
  apply bind_invariant.
  - apply Hbody; [set_solver|done].
  - intros _ s' Hs'. apply IH; [|done].
    intros y s0 Hy. apply Hbody. set_solver.
Qed.

(** *** Well-formed buses *)

Lemma waiters_executed e v bus0 bus e' :
  pendingEventsRegistry bus0 = pendingEventsRegistry bus ->
  waiters (set_registry (delete e) (set_promises v bus0)) e'
  = if decide (e' = e) then [] else waiters bus e'.
Proof.
  intros Hreg. unfold waiters. simpl. rewrite Hreg.
  destruct (decide (e' = e)) as [->|Hne].
  - by rewrite lookup_delete_eq.
  - by rewrite lookup_delete_ne.
Qed.

Lemma well_formed_new : well_formed newMessageBus.
Proof. split; intros *; unfold waiters; simpl; set_solver. Qed.

Lemma well_formed_same bus bus' :
  pendingEventsRegistry bus' = pendingEventsRegistry bus ->
  promises bus' = promises bus ->
  well_formed bus -> well_formed bus'.
Proof.
  unfold well_formed, waiters. intros -> ->. done.
Qed.

Lemma well_formed_detached e r bus :
  well_formed bus -> well_formed (detached e r bus).
Proof.
  apply well_formed_same; [apply detached_registry|apply detached_promises].
Qed.

Lemma well_formed_executed e v bus0 bus :
  pendingEventsRegistry bus0 = pendingEventsRegistry bus ->
  promises bus0 = promises bus ->
  well_formed bus ->
  well_formed
    (set_registry (delete e) (set_promises (resolveAll (waiters bus e) v) bus0)).
Proof.
  intros Hreg Hps [Hpending Hone]. split.
  - intros e' w. rewrite (waiters_executed _ _ _ bus) by done.
    destruct (decide (e' = e)) as [->|Hne]; [set_solver|].
    intros Hw. simpl. rewrite Hps, resolveAll_other; [by eapply Hpending|].
    intros Hw'. apply Hne. by eapply Hone.
  - intros e1 e2 w. rewrite !(waiters_executed _ _ _ bus) by done.
    destruct (decide (e1 = e)); [set_solver|].
    destruct (decide (e2 = e)); [set_solver|]. apply Hone.
Qed.

Lemma well_formed_call e args r bus :
  well_formed bus -> well_formed (snd (call e args r bus)).
Proof.
  intros Hwf. destruct (listener r args) as [v|x] eqn:Hl.
  - rewrite (call_returns _ _ _ _ _ Hl). simpl.
    apply well_formed_executed;
      [apply detached_registry|apply detached_promises|done].
  - rewrite (call_throws _ _ _ _ _ Hl). by apply well_formed_detached.
Qed.

Lemma well_formed_emit e args bus :
  well_formed bus -> well_formed (snd (emit e args bus)).
Proof.
  intros Hwf. unfold emit, get. unfold bind at 1.
  destruct (listeners bus e) as [|r rs].
  - by destruct (bool_decide _).
  - apply bind_invariant; [|done].
    apply forOf_invariant; [|done]. intros. by apply well_formed_call.
Qed.

Lemma well_formed_registration eventName bus :
  well_formed bus -> well_formed (registration eventName bus).
Proof.
  intros [Hpending Hone].
  assert (Hw : forall e' w,
    w ∈ waiters (registration eventName bus) e' ->
    (w ∈ waiters bus e')
    \/ (e' = EventString eventName /\ w = length (promises bus))).
  { intros e' w. unfold waiters at 1. simpl.
    destruct (decide (e' = EventString eventName)) as [->|Hne].
    - rewrite lookup_insert_eq. simpl.
      intros [Hold|Hnew%list_elem_of_singleton]%elem_of_app; auto.
    - rewrite lookup_insert_ne by done. by left. }
  assert (Hfresh : forall e' , length (promises bus) ∉ waiters bus e').
  { intros e' Hin. apply Hpending in Hin. apply lookup_lt_Some in Hin. lia. }
  split.
  - intros e' w Hin. simpl. destruct (Hw _ _ Hin) as [Hold|[_ ->]].
    + rewrite lookup_app_l; [by eapply Hpending|].
      eapply lookup_lt_Some. by eapply Hpending.
    + by rewrite lookup_app_r, Nat.sub_diag.
  - intros e1 e2 w Hin1 Hin2.
    destruct (Hw _ _ Hin1) as [Hold1|[-> ->]];
      destruct (Hw _ _ Hin2) as [Hold2|[-> Hw2]]; try done.
    + by eapply Hone.
    + subst w. by apply Hfresh in Hold1.
    + by apply Hfresh in Hold2.
Qed.

Lemma well_formed_send eventName args bus :
  well_formed bus -> well_formed (snd (send eventName args bus)).
Proof.
  intros Hwf. rewrite send_registration.
  apply bind_invariant; [|done].
  by apply well_formed_emit, well_formed_registration.
Qed.

Lemma well_formed_after c bus :
  well_formed bus -> well_formed (after c bus).
Proof.
  destruct c as [eventName args|eventName l|eventName l]; simpl.
  - apply well_formed_send.
  - by apply well_formed_same.
  - by apply well_formed_same.
Qed.

(** Every bus a program can hold is well formed. *)
Lemma reachable_well_formed bus : reachable bus -> well_formed bus.
Proof.
  induction 1 as [|c bus _ _ IH]; [apply well_formed_new|].
  by apply well_formed_after.
Qed.

Lemma reachable_afterAll cs bus :
  forallb ordinary cs = true -> reachable bus -> reachable (afterAll cs bus).
Proof.
  unfold afterAll. revert bus.
  induction cs as [|c cs IH]; intros bus Hcs Hr; simpl; [done|].
  simpl in Hcs. apply andb_prop in Hcs as [Hc Hcs].
  apply IH; [done|]. by constructor.
Qed.

(** *** What an emission leaves alone *)

(** The number of promises is changed by [send] only, which adds one. *)
Lemma length_promises_emit e args bus :
  length (promises (snd (emit e args bus))) = length (promises bus).
Proof.
  unfold emit, get. unfold bind at 1.
  destruct (listeners bus e) as [|r rs]; [by destruct (bool_decide _)|].
  apply (bind_invariant (fun b => length (promises b) = length (promises bus)));
    [|done].
  apply forOf_invariant; [|done].
  intros r' b _ Hb. destruct (listener r' args) as [v|x] eqn:Hl.
  - rewrite (call_returns _ _ _ _ _ Hl). simpl.
    by rewrite length_resolveAll, detached_promises.
  - rewrite (call_throws _ _ _ _ _ Hl). simpl. by rewrite detached_promises.
Qed.

Lemma length_promises_send eventName args bus :
  length (promises (snd (send eventName args bus))) = S (length (promises bus)).
Proof.
  rewrite send_registration.
  apply (bind_invariant (fun b => length (promises b) = S (length (promises bus))));
    [|done].
  rewrite length_promises_emit. simpl. rewrite length_app. simpl. lia.
Qed.

(** A settled promise keeps its state through an emission. *)
Lemma settled_emit e args bus w st :
  st <> Pending -> promises bus !! w = Some st ->
  promises (snd (emit e args bus)) !! w = Some st.
Proof.
  intros Hst Hw. unfold emit, get. unfold bind at 1.
  destruct (listeners bus e) as [|r rs]; [by destruct (bool_decide _)|].
  apply (bind_invariant (fun b => promises b !! w = Some st)); [|done].
  apply forOf_invariant; [|done].
  intros r' b _ Hb. destruct (listener r' args) as [v|x] eqn:Hl.
  - rewrite (call_returns _ _ _ _ _ Hl). simpl.
    rewrite resolveAll_settled; rewrite detached_promises, Hb; congruence.
  - rewrite (call_throws _ _ _ _ _ Hl). simpl. by rewrite detached_promises.
Qed.

Lemma settled_send eventName args bus w st :
  st <> Pending -> promises bus !! w = Some st ->
  promises (snd (send eventName args bus)) !! w = Some st.
Proof.
  intros Hst Hw. rewrite send_registration.
  apply (bind_invariant (fun b => promises b !! w = Some st)); [|done].
  apply settled_emit; [done|]. simpl.
  rewrite lookup_app_l; [done|]. by eapply lookup_lt_Some.
Qed.

(** Once the entry of an event is gone, the remaining listeners of the
    emission find nothing to resolve. *)
Lemma calls_on_cleared e args rs bus :
  pendingEventsRegistry bus !! e = None ->
  let bus' := snd (forOf rs (call e args) bus) in
  pendingEventsRegistry bus' !! e = None /\ promises bus' = promises bus.
Proof.
  intros Hnone.
  apply (forOf_invariant
           (fun b => pendingEventsRegistry b !! e = None
                     /\ promises b = promises bus)); [|done].
  intros r b _ [Hb Hps]. destruct (listener r args) as [v|x] eqn:Hl.
  - rewrite (call_returns _ _ _ _ _ Hl). simpl. split.
    + apply lookup_delete_eq.
    + unfold waiters. rewrite Hb. simpl. by rewrite detached_promises.
  - rewrite (call_throws _ _ _ _ _ Hl). simpl.
    by rewrite detached_registry, detached_promises.
Qed.

(** *** Waiting *)

(** A promise that waits for an event goes on waiting through every call
    that does not emit the event to a listener. *)
Lemma waiting_after eventName p c bus :
  answered eventName c bus = false ->
  well_formed bus -> waiting (EventString eventName) p bus ->
  waiting (EventString eventName) p (after c bus).
Proof.
  intros Hc Hwf [Hp Hin].
  destruct c as [eventName' args|eventName' l|eventName' l]; simpl; try done.
  set (E := EventString eventName) in *. set (E' := EventString eventName').
  assert (Hreg : waiting E p (registration eventName' bus)).
  { split.
    - simpl. rewrite lookup_app_l; [done|]. by eapply lookup_lt_Some.
    - unfold waiters. simpl. fold E'.
      destruct (decide (E' = E)) as [->|HE].
      + rewrite lookup_insert_eq. simpl. apply elem_of_app. by left.
      + by rewrite lookup_insert_ne. }
  rewrite send_registration. fold E'.
  unfold answered in Hc. simpl in Hc. fold E in Hc.
  destruct (decide (eventName' = eventName)) as [->|Hne].
  - (* the event is emitted, and nobody listens *)
    rewrite bool_decide_eq_true_2 in Hc by done. simpl in Hc.
    assert (Hl : listeners (registration eventName bus) E = []).
    { change (listeners bus E = []). by destruct (listeners bus E). }
    enough (Hsnd : snd ((emit E args ;; ret (length (promises bus)))
                          (registration eventName bus))
                   = registration eventName bus)
      by (change E' with E; by rewrite Hsnd).
    pose proof (emit_unheard E args _ Hl) as Hsame. unfold bind.
    by destruct (emit E args (registration eventName bus)) as [[a|x] b'].
  - (* another event is emitted *)
    clear Hc.
    assert (HE : E' <> E) by (unfold E, E'; congruence).
    set (I := fun b => well_formed b /\ waiting E p b).
    enough (HI : I (snd ((emit E' args ;; ret (length (promises bus)))
                           (registration eventName' bus)))) by apply HI.
    apply bind_invariant; [|done].
    assert (H1 : I (registration eventName' bus))
      by (split; [by apply well_formed_registration|done]).
    revert H1. generalize (registration eventName' bus). intros b Hb.
    unfold emit, get. unfold bind at 1.
    destruct (listeners b E') as [|r rs]; [by destruct (bool_decide _)|].
    apply bind_invariant; [|done]. apply forOf_invariant; [|done].
    clear b Hb. intros r' b _ [Hwfb [Hpb Hinb]].
    split; [by apply well_formed_call|].
    destruct (listener r' args) as [v|x] eqn:Hl.
    + rewrite (call_returns _ _ _ _ _ Hl). split; simpl.
      * rewrite resolveAll_other; [by rewrite detached_promises|].
        intros Hin'. apply HE. destruct Hwfb as [_ Hone]. by eapply Hone.
      * rewrite (waiters_executed _ _ _ b) by apply detached_registry.
        by rewrite decide_False.
    + rewrite (call_throws _ _ _ _ _ Hl). split; simpl.
      * by rewrite detached_promises.
      * by rewrite detached_waiters.
Qed.

Lemma waiting_afterAll eventName p cs bus :
  unanswered eventName cs bus = true ->
  well_formed bus -> waiting (EventString eventName) p bus ->
  waiting (EventString eventName) p (afterAll cs bus).
Proof.
  unfold afterAll. revert bus.
  induction cs as [|c cs IH]; intros bus Hcs Hwf Hw; simpl; [done|].
  simpl in Hcs. apply andb_prop in Hcs as [Hc Hcs].
  apply andb_prop in Hc as [_ Hc]. apply negb_true_iff in Hc.
  apply IH; [done|by apply well_formed_after|by apply waiting_after].
Qed.

(** *** One emission *)

(** The emission of [send] when the first listener returns: every waiter,
    the caller included, is fulfilled with that result and the entry of
    the event is deleted, whatever the later listeners do. *)
Lemma send_first_returns eventName args bus r rs v :
  well_formed bus ->
  listeners bus (EventString eventName) = r :: rs ->
  listener r args = Normal v ->
  let bus' := snd (send eventName args bus) in
  (forall w, w ∈ waiters bus (EventString eventName) ++ [length (promises bus)] ->
             promises bus' !! w = Some (Fulfilled v))
  /\ pendingEventsRegistry bus' !! EventString eventName = None
  /\ (rs = [] -> fst (send eventName args bus) = Normal (length (promises bus))).
Proof.
  intros Hwf Hl Hv. cbv zeta. rewrite send_registration.
  set (b1 := registration eventName bus).
  assert (Hwf1 : well_formed b1) by by apply well_formed_registration.
  assert (Hw1 : waiters b1 (EventString eventName)
                = waiters bus (EventString eventName) ++ [length (promises bus)]).
  { unfold waiters at 1. simpl. by rewrite lookup_insert_eq. }
  assert (Hemit : emit (EventString eventName) args b1
                  = (forOf (r :: rs) (call (EventString eventName) args) ;;
                     ret true) b1) by by apply emit_listeners.
  simpl forOf in Hemit.
  set (b2 := set_registry (delete (EventString eventName))
               (set_promises
                  (resolveAll (waiters b1 (EventString eventName)) v)
                  (detached (EventString eventName) r b1))).
  assert (Hcall : call (EventString eventName) args r b1 = (Normal tt, b2))
    by by apply call_returns.
  assert (Hb2 : forall w,
    w ∈ waiters bus (EventString eventName) ++ [length (promises bus)] ->
    promises b2 !! w = Some (Fulfilled v)).
  { intros w Hw. rewrite <- Hw1 in Hw. unfold b2. simpl.
    apply resolveAll_pending; [done|]. rewrite detached_promises.
    by apply Hwf1 in Hw. }
  assert (Hnone : pendingEventsRegistry b2 !! EventString eventName = None)
    by apply lookup_delete_eq.
  pose proof (calls_on_cleared (EventString eventName) args rs b2 Hnone) as Hc.
  cbv zeta in Hc.
  destruct (forOf rs (call (EventString eventName) args) b2) as [c b3] eqn:Hrest.
  change (snd (c, b3)) with b3 in Hc. destruct Hc as [Hreg Hps].
  assert (Hsend :
    (emit (EventString eventName) args ;; ret (length (promises bus))) b1
    = (match c with
       | Normal _ => Normal (length (promises bus))
       | Throw x => Throw x
       end, b3)).
  { unfold bind at 1. rewrite Hemit. unfold bind. rewrite Hcall, Hrest.
    by destruct c. }
  rewrite Hsend. change (snd (_, b3)) with b3. rewrite Hps.
  split; [exact Hb2|]. split; [exact Hreg|].
  intros ->. simpl in Hrest. by injection Hrest as <- _.
Qed.

(** C4. On a bus a program can hold, with exactly one subscriber for an
    event whose listener returns [V]: a [send] of the event returns its
    promise, and that promise and the promise of every waiter registered
    for the event before the emission are fulfilled with the same [V]; the
    entry of the event is deleted. *)
Theorem send_resolves_every_waiter bus eventName args r V :
  reachable bus ->
  listeners bus (EventString eventName) = [r] ->
  listener r args = Normal V ->
  exists bus',
    send eventName args bus = (Normal (length (promises bus)), bus')
    /\ (forall w, w ∈ waiters bus (EventString eventName) ->
                  promises bus' !! w = Some (Fulfilled V))
    /\ promises bus' !! length (promises bus) = Some (Fulfilled V)
    /\ pendingEventsRegistry bus' !! EventString eventName = None.
Proof.
  intros Hreach Hl Hv.
  destruct (send_first_returns eventName args bus r [] V) as (Hall & Hnone & Hret);
    [by apply reachable_well_formed|done|done|].
  exists (snd (send eventName args bus)). repeat split.
  - rewrite <- Hret by done. by destruct (send eventName args bus).
  - intros w Hw. apply Hall. set_solver.
  - apply Hall. set_solver.
  - done.
Qed.

(** C5. On a bus a program can hold, an emission of an event whose first
    listener returns [v] fulfils every waiter of the event with [v] and
    deletes the entry.  A [send] that comes after starts a new entry: its
    promise is new and is not touched by [v].  Either a listener of this
    later emission returns and the promise is fulfilled with that result, or
    the promise is pending and alone in the entry, and stays pending through
    every history in which no emission of the event reaches a listener.  The
    earlier waiters keep [v]. *)
Theorem emission_clears_waiters bus eventName args r rs v args2 :
  reachable bus ->
  listeners bus (EventString eventName) = r :: rs ->
  listener r args = Normal v ->
  let E := EventString eventName in
  let before := waiters bus E ++ [length (promises bus)] in
  let cleared := snd (send eventName args bus) in
  let p2 := length (promises cleared) in
  let later := snd (send eventName args2 cleared) in
  (forall w, w ∈ before -> promises cleared !! w = Some (Fulfilled v))
  /\ pendingEventsRegistry cleared !! E = None
  /\ (p2 ∉ before)
  /\ (forall w, w ∈ before -> promises later !! w = Some (Fulfilled v))
  /\ ((promises later !! p2 = Some Pending
       /\ waiters later E = [p2]
       /\ forall cs, unanswered eventName cs later = true ->
                     waiting E p2 (afterAll cs later))
      \/ (exists r' rs' v2,
            listeners cleared E = r' :: rs'
            /\ listener r' args2 = Normal v2
            /\ promises later !! p2 = Some (Fulfilled v2))).
Proof.
  intros Hreach Hl Hv E before cleared p2 later.
  assert (Hwf : well_formed bus) by by apply reachable_well_formed.
  destruct (send_first_returns eventName args bus r rs v Hwf Hl Hv)
    as (Hall & Hnone & _).
  fold cleared in Hall, Hnone. fold E in Hnone.
  assert (Hwfc : well_formed cleared) by by apply well_formed_send.
  split; [exact Hall|]. split; [exact Hnone|].
  split.
  { intros Hin. apply Hall in Hin. apply lookup_lt_Some in Hin.
    unfold p2 in Hin. lia. }
  split.
  { intros w Hw. apply settled_send; [done|by apply Hall]. }
  assert (Hw0 : waiters cleared E = []) by (unfold waiters; by rewrite Hnone).
  assert (Hfresh_entry : forall b,
    promises b = promises (registration eventName cleared) ->
    waiters b E = waiters (registration eventName cleared) E ->
    well_formed b ->
    promises b !! p2 = Some Pending
    /\ waiters b E = [p2]
    /\ forall cs, unanswered eventName cs b = true ->
                  waiting E p2 (afterAll cs b)).
  { intros b Hps Hws Hwfb.
    assert (Hp2 : promises b !! p2 = Some Pending).
    { rewrite Hps. simpl. by rewrite lookup_app_r, Nat.sub_diag. }
    assert (Hentry : waiters b E = [p2]).
    { rewrite Hws. unfold waiters at 1. simpl. fold E.
      rewrite lookup_insert_eq. simpl. by rewrite Hw0. }
    split; [exact Hp2|]. split; [exact Hentry|].
    intros cs Hcs. apply waiting_afterAll; [done|done|].
    split; [exact Hp2|]. fold E. rewrite Hentry. apply list_elem_of_here. }
  destruct (listeners cleared E) as [|r' rs'] eqn:Hl2.
  - left. unfold later. rewrite send_registration.
    set (b1 := registration eventName cleared).
    assert (Hb1 : snd (emit E args2 b1) = b1).
    { unfold emit, get. unfold bind at 1.
      change (listeners b1 E) with (listeners cleared E). rewrite Hl2.
      by destruct (bool_decide _). }
    assert (Hsnd : snd ((emit E args2 ;; ret (length (promises cleared))) b1)
                   = b1).
    { unfold bind. fold E. destruct (emit E args2 b1) as [[]]; by simpl in *. }
    fold E. rewrite Hsnd.
    apply Hfresh_entry; [done|done|by apply well_formed_registration].
  - destruct (listener r' args2) as [v2|x] eqn:Hv2.
    + right. exists r', rs', v2. repeat split; try done.
      destruct (send_first_returns eventName args2 cleared r' rs' v2 Hwfc Hl2 Hv2)
        as (Hall2 & _ & _).
      apply Hall2, elem_of_app. right. apply list_elem_of_here.
    + left. unfold later. rewrite send_registration.
      set (b1 := registration eventName cleared).
      assert (Hemit : emit E args2 b1 = (Throw x, detached E r' b1)).
      { rewrite (emit_listeners E args2 b1 r' rs') by done.
        simpl forOf. unfold bind. by rewrite (call_throws _ _ _ _ _ Hv2). }
      unfold bind. fold E. rewrite Hemit. simpl.
      apply Hfresh_entry; [apply detached_promises|apply detached_waiters|].
      by apply well_formed_detached, well_formed_registration.
Qed.

(** *** A listener that throws *)




(** *** Nobody listens *)

(** [send('error')] when nobody listens to 'error': the waiter is
    registered, then the emitter throws. *)
Lemma send_error_unhandled args bus :
  listeners bus (EventString "error") = [] ->
  send "error" args bus
  = (Throw (UnhandledError (head args)), registration "error" bus).
Proof.
  intros Hl. rewrite send_registration. unfold bind.
  by rewrite emit_error_unhandled.
Qed.

(** C7, as the code has it.  On a bus a program can hold, for an event
    other than 'error' that nobody listens to, [send] returns its promise
    with the waiter registered and the promise pending, and the promise
    stays pending and registered through every later history of ordinary
    calls in which no emission of the event reaches a listener. *)
Theorem send_without_listener_waits bus eventName args :
  reachable bus ->
  eventName <> "error" ->
  listeners bus (EventString eventName) = [] ->
  let p := length (promises bus) in
  send eventName args bus = (Normal p, registration eventName bus)
  /\ waiting (EventString eventName) p (registration eventName bus)
  /\ forall cs,
       unanswered eventName cs (registration eventName bus) = true ->
       waiting (EventString eventName) p
         (afterAll cs (registration eventName bus)).
Proof.
  intros Hreach Hne Hl p.
  assert (Hwf : well_formed (registration eventName bus))
    by by apply well_formed_registration, reachable_well_formed.
  assert (Hw : waiting (EventString eventName) p (registration eventName bus)).
  { split.
    - simpl. by rewrite lookup_app_r, Nat.sub_diag.
    - unfold waiters. simpl. rewrite lookup_insert_eq. simpl. set_solver. }
  split; [|split; [exact Hw|]].
  - rewrite send_registration. unfold bind.
    rewrite emit_no_listener; [done|exact Hl|congruence].
  - intros cs Hcs. by apply waiting_afterAll.
Qed.

End MessageBusFacts.

(** *** The bus on concrete histories *)

Section MessageBusScenarios.
Import Context Scenarios.

Lemma send_resolves_every_waiter_witness :
  reachable twoWaiting
  /\ listeners twoWaiting (EventString "ping") = [firstRegistered false pong]
  /\ waiters twoWaiting (EventString "ping") = [0; 1]%nat
  /\ exists bus',
       send "ping" [] twoWaiting = (Normal 2%nat, bus')
       /\ (forall w, w ∈ waiters twoWaiting (EventString "ping") ->
                     promises bus' !! w = Some (Fulfilled (JsString "pong")))
       /\ promises bus' !! 2%nat = Some (Fulfilled (JsString "pong"))
       /\ pendingEventsRegistry bus' !! EventString "ping" = None.
Proof.
  assert (Hreach : reachable twoWaiting)
    by (apply reachable_afterAll; [reflexivity|apply reachable_new]).
  split; [exact Hreach|]. split; [reflexivity|]. split; [reflexivity|].
  apply (send_resolves_every_waiter twoWaiting "ping" []
           (firstRegistered false pong) (JsString "pong"));
    [exact Hreach|reflexivity|reflexivity].
Defined.

Lemma emission_clears_waiters_witness :
  reachable pongOnce
  /\ listeners pongOnce (EventString "ping") = [firstRegistered true pong]
  /\ promises (snd (send "ping" [] pongOnce)) !! 0%nat
     = Some (Fulfilled (JsString "pong"))
  /\ pendingEventsRegistry (snd (send "ping" [] pongOnce)) !! EventString "ping"
     = None
  /\ promises (snd (send "ping" [] (snd (send "ping" [] pongOnce)))) !! 0%nat
     = Some (Fulfilled (JsString "pong"))
  /\ promises (snd (send "ping" [] (snd (send "ping" [] pongOnce)))) !! 1%nat
     = Some Pending
  /\ waiters (snd (send "ping" [] (snd (send "ping" [] pongOnce))))
       (EventString "ping")
     = [1%nat].
Proof.
  assert (Hreach : reachable pongOnce)
    by (apply reachable_afterAll; [reflexivity|apply reachable_new]).
  split; [exact Hreach|]. split; [reflexivity|].
  destruct (emission_clears_waiters pongOnce "ping" []
              (firstRegistered true pong) [] (JsString "pong") []
              Hreach eq_refl eq_refl)
    as (Hall & Hnone & Hfresh & Hkept & Hlater).
  split; [apply Hall; vm_compute; apply list_elem_of_here|].
  split; [exact Hnone|].
  split; [apply Hkept; vm_compute; apply list_elem_of_here|].
  destruct Hlater as [(Hpending & Halone & _)|(r' & rs' & v2 & Hl & _)].
  - split; [exact Hpending|exact Halone].
  - vm_compute in Hl. discriminate Hl.
Defined.



(** C7 fails on the code for the event 'error': nobody listens, and
    [send('error')] throws instead of returning a promise. *)
Lemma send_error_counterexample :
  listeners newMessageBus (EventString "error") = []
  /\ send "error" [] newMessageBus
     = (Throw (UnhandledError None), registration "error" newMessageBus).
Proof. split; [reflexivity|]. by apply send_error_unhandled. Qed.

Lemma send_without_listener_waits_witness :
  reachable newMessageBus
  /\ "ping" <> "error"
  /\ listeners newMessageBus (EventString "ping") = []
  /\ send "ping" [] newMessageBus
     = (Normal 0%nat, registration "ping" newMessageBus)
  /\ waiting (EventString "ping") 0 (registration "ping" newMessageBus)
  /\ waiting (EventString "ping") 0
       (afterAll [CallSend "ping" [JsNumber 2];
                  CallOn (EventString "ping") pong;
                  CallOnce (EventString "pung") echo;
                  CallSend "pung" [JsNumber 1]]
          (registration "ping" newMessageBus)).
Proof.
  split; [apply reachable_new|]. split; [discriminate|].
  split; [reflexivity|].
  destruct (send_without_listener_waits newMessageBus "ping" []
              reachable_new ltac:(discriminate) eq_refl)
    as (Hsend & Hwaiting & Hlater).
  split; [exact Hsend|]. split; [exact Hwaiting|].
  apply Hlater. reflexivity.
Defined.

End MessageBusScenarios.

(* ===================================================================== *)
(** * More properties                                                     *)
(* ===================================================================== *)

(** ** The registry of the message bus *)

Section RegistryFacts.
Import Context Subscriptions.

Implicit Types (bus : MessageBus) (ps : list PromiseState) (p w : nat).
Implicit Types (e : EventName) (r : Registered) (args : list JsValue).

Lemma tidy_new : tidy newMessageBus.
Proof.
  split.
  - intros e. unfold waiters. simpl. rewrite lookup_empty. constructor.
  - intros e ws. simpl. by rewrite lookup_empty.
Qed.

Lemma tidy_same bus bus' :
  pendingEventsRegistry bus' = pendingEventsRegistry bus ->
  tidy bus -> tidy bus'.
Proof. unfold tidy, waiters. by intros ->. Qed.

Lemma tidy_executed e v bus0 bus :
  pendingEventsRegistry bus0 = pendingEventsRegistry bus ->
  tidy bus ->
  tidy (set_registry (delete e) (set_promises v bus0)).
Proof.
  intros Hreg [Hnodup Hfull]. split.
  - intros e'. rewrite (waiters_executed _ _ _ bus) by done.
    destruct (decide (e' = e)); [constructor|apply Hnodup].
  - intros e' ws. simpl. rewrite Hreg.
    intros [_ Hws]%lookup_delete_Some. by eapply Hfull.
Qed.

Lemma tidy_registration eventName bus :
  well_formed bus -> tidy bus -> tidy (registration eventName bus).
Proof.
  intros [Hpending _] [Hnodup Hfull]. split.
  - intros e'. unfold waiters at 1. simpl.
    destruct (decide (e' = EventString eventName)) as [->|Hne].
    + rewrite lookup_insert_eq. simpl.
      apply NoDup_app. split; [apply Hnodup|]. split; [|apply NoDup_singleton].
      intros w Hin ->%list_elem_of_singleton.
      apply Hpending, lookup_lt_Some in Hin. lia.
    + rewrite lookup_insert_ne by done. apply Hnodup.
  - intros e' ws. simpl.
    intros [[_ <-]|[_ Hws]]%lookup_insert_Some; [|by eapply Hfull].
    by destruct (waiters bus (EventString eventName)).
Qed.

Lemma tidy_emit e args bus :
  tidy bus -> tidy (snd (emit e args bus)).
Proof.
  intros Htidy. unfold emit, get. unfold bind at 1.
  destruct (listeners bus e) as [|r rs];
    [by destruct (bool_decide _)|].
  apply (bind_invariant tidy); [|done].
  apply (forOf_invariant tidy); [|done].
  intros r' b _ Hb.
  destruct (listener r' args) as [v|x] eqn:Hl.
  - rewrite (call_returns _ _ _ _ _ Hl). simpl.
    apply (tidy_executed _ _ _ b); [apply detached_registry|done].
  - rewrite (call_throws _ _ _ _ _ Hl). simpl.
    eapply tidy_same; [apply detached_registry|done].
Qed.

Lemma tidy_after c bus :
  well_formed bus -> tidy bus -> tidy (after c bus).
Proof.
  intros Hwf Htidy.
  destruct c as [eventName args|eventName l|eventName l]; simpl.
  - rewrite send_registration.
    apply (bind_invariant tidy); [|done].
    by apply tidy_emit, tidy_registration.
  - by eapply tidy_same.
  - by eapply tidy_same.
Qed.

(** X1. On every bus a program can hold, a [resolve] that the registry
    holds belongs to a promise that is still pending; it is in the array of
    one event only, and there once; and the registry holds no empty
    array. *)
Theorem registered_resolves_are_pending bus :
  reachable bus ->
  (forall e w, w ∈ waiters bus e -> promises bus !! w = Some Pending)
  /\ (forall e1 e2 w, w ∈ waiters bus e1 -> w ∈ waiters bus e2 -> e1 = e2)
  /\ (forall e, NoDup (waiters bus e))
  /\ (forall e ws, pendingEventsRegistry bus !! e = Some ws -> ws <> []).
Proof.
  intros Hreach.
  assert (Hboth : well_formed bus /\ tidy bus).
  { induction Hreach as [|c bus _ _ [IHwf IHtidy]].
    - split; [apply well_formed_new|apply tidy_new].
    - split; [by apply well_formed_after|by apply tidy_after]. }
  destruct Hboth as [[Hpending Hone] [Hnodup Hfull]].
  by repeat split.
Qed.

(** The bus after a [send] that nobody hears is the bus with the waiter
    registered, whether [send] returns or, for 'error', throws. *)
Lemma after_send_unheard eventName args bus :
  listeners bus (EventString eventName) = [] ->
  snd (send eventName args bus) = registration eventName bus.
Proof.
  intros Hl. rewrite send_registration.
  pose proof (emit_unheard (EventString eventName) args
                (registration eventName bus) Hl) as Hsame.
  unfold bind.
  by destruct (emit (EventString eventName) args (registration eventName bus))
    as [[a|x] b'].
Qed.

(** X2. While nobody listens to an event, every [send] of it adds one
    pending promise and appends its [resolve] to the array of the event:
    after a run of such calls the array holds the earlier waiters followed
    by the new ones in the order of the calls, and nobody listens still. *)
Theorem unheard_sends_queue_up eventName argss bus :
  listeners bus (EventString eventName) = [] ->
  let bus' := afterAll (sends eventName argss) bus in
  waiters bus' (EventString eventName)
  = waiters bus (EventString eventName)
    ++ seq (length (promises bus)) (length argss)
  /\ promises bus' = promises bus ++ replicate (length argss) Pending
  /\ listeners bus' (EventString eventName) = [].
Proof.
  revert bus. induction argss as [|args argss IH]; intros bus Hl; simpl.
  - by rewrite !app_nil_r.
  - unfold afterAll in *. simpl. rewrite (after_send_unheard _ _ _ Hl).
    specialize (IH (registration eventName bus) Hl). cbv zeta in IH.
    destruct IH as (Hws & Hps & Hls). split; [|split; [|exact Hls]].
    + rewrite Hws. unfold waiters at 1. simpl. rewrite lookup_insert_eq. simpl.
      rewrite length_app, <- app_assoc. simpl.
      by rewrite Nat.add_1_r.
    + rewrite Hps. simpl. by rewrite <- app_assoc.
Qed.

Lemma unheard_sends_queue_up_witness :
  listeners newMessageBus (EventString "error") = []
  /\ waiters (afterAll (sends "error" [[]; [JsNumber 1]; []]) newMessageBus)
       (EventString "error")
     = [0; 1; 2]%nat
  /\ promises (afterAll (sends "error" [[]; [JsNumber 1]; []]) newMessageBus)
     = [Pending; Pending; Pending].
Proof.
  split; [reflexivity|].
  destruct (unheard_sends_queue_up "error" [[]; [JsNumber 1]; []] newMessageBus
              eq_refl) as (Hws & Hps & _).
  split; [exact Hws|exact Hps].
Defined.

(** X3. A promise that is fulfilled keeps its value through every later
    call on the bus: a [resolve] called again does nothing. *)
Theorem fulfilled_promise_is_final bus w v cs :
  promises bus !! w = Some (Fulfilled v) ->
  promises (afterAll cs bus) !! w = Some (Fulfilled v).
Proof.
  unfold afterAll. revert bus.
  induction cs as [|c cs IH]; intros bus Hw; simpl; [done|].
  apply IH. destruct c as [eventName args|eventName l|eventName l]; simpl;
    [|done|done].
  by apply settled_send.
Qed.

Lemma fulfilled_promise_is_final_witness :
  promises (snd (send "ping" [] Scenarios.twoWaiting)) !! 0%nat
  = Some (Fulfilled (JsString "pong"))
  /\ promises
       (afterAll [CallOn (EventString "ping") Scenarios.echo;
                  CallSend "ping" [JsNumber 7]]
          (snd (send "ping" [] Scenarios.twoWaiting))) !! 0%nat
     = Some (Fulfilled (JsString "pong")).
Proof.
  assert (H0 : promises (snd (send "ping" [] Scenarios.twoWaiting)) !! 0%nat
               = Some (Fulfilled (JsString "pong"))) by reflexivity.
  split; [exact H0|].
  by apply fulfilled_promise_is_final.
Defined.

End RegistryFacts.

Section RegistryScenarios.
Import Context.

Lemma registered_resolves_are_pending_witness :
  reachable Scenarios.twoWaiting
  /\ waiters Scenarios.twoWaiting (EventString "ping") = [0; 1]%nat
  /\ promises Scenarios.twoWaiting !! 1%nat = Some Pending
  /\ NoDup (waiters Scenarios.twoWaiting (EventString "ping")).
Proof.
  assert (Hreach : reachable Scenarios.twoWaiting)
    by (apply reachable_afterAll; [reflexivity|apply reachable_new]).
  split; [exact Hreach|]. split; [reflexivity|].
  destruct (registered_resolves_are_pending Scenarios.twoWaiting Hreach)
    as (Hpending & _ & Hnodup & _).
  split; [|apply Hnodup].
  apply (Hpending (EventString "ping")). vm_compute.
  apply list_elem_of_further, list_elem_of_here.
Defined.

End RegistryScenarios.

(** ** Subscribing and sending *)

Section SubscribeAndSend.
Import Context Subscriptions.

Implicit Types (bus : MessageBus) (e : EventName) (r : Registered).
Implicit Types (args : list JsValue).










End SubscribeAndSend.

(** ** More of the authorization middleware *)

Section AuthorizationMore.
Import Casl Identity Policies Authorize.

Context {IResult : Type} `{Packages IResult}.

Implicit Types (ps qs : list (Policy IResult)) (p : Policy IResult).

Lemma authorized_applicable ps action req :
  authorized ps action req
  = match applicable ps req with
    | [] => false
    | Q => forallb (permits action) Q
    end.
Proof.
  unfold authorized.
  pose proof (authorizeOver_cases ps action req (ret tt) []) as Hc.
  destruct (applicable ps req) as [|q Q']; [by rewrite Hc|].
  cbv beta iota zeta in Hc.
  destruct (forallb (permits action) (q :: Q')).
  - by rewrite Hc.
  - destruct Hc as [log' ->]. reflexivity.
Qed.

Lemma applicable_filter ps req :
  applicable ps req
  = List.filter (fun it => evaluate it None JsNull (getEnv req)) ps.
Proof. reflexivity. Qed.

Lemma Permutation_list_filter {A} (P : A -> bool) (l l' : list A) :
  Permutation l l' -> Permutation (List.filter P l) (List.filter P l').
Proof.
  induction 1 as [|x l l' _ IH|x y l|l l' l'' _ IH1 _ IH2]; simpl.
  - constructor.
  - destruct (P x); [by constructor|done].
  - destruct (P x), (P y); try done; try by constructor.
  - by etransitivity.
Qed.

Lemma forallb_Permutation {A} (P : A -> bool) (l l' : list A) :
  Permutation l l' -> forallb P l = forallb P l'.
Proof.
  induction 1 as [|x l l' _ IH|x y l|l l' l'' _ IH1 _ IH2]; simpl.
  - done.
  - by rewrite IH.
  - by destruct (P x), (P y).
  - by etransitivity.
Qed.

(** X9. The order in which the policies are registered does not matter to
    the decision: two lists of policies that are permutations of each
    other authorize the same actions for the same requests. *)
Theorem authorize_order_is_irrelevant ps qs action req :
  Permutation ps qs ->
  authorized ps action req = authorized qs action req.
Proof.
  intros Hperm. rewrite !authorized_applicable, !applicable_filter.
  pose proof (Permutation_list_filter
                (fun it => evaluate it None JsNull (getEnv req)) ps qs Hperm)
    as Hf.
  destruct (List.filter _ ps) as [|a A] eqn:Ha.
  - apply Permutation_nil in Hf. by rewrite Hf.
  - destruct (List.filter _ qs) as [|b B] eqn:Hb.
    + symmetry in Hf. by apply Permutation_nil in Hf.
    + by apply forallb_Permutation.
Qed.

(** X10. The trace of a refusal: when the applicable policies are [pre],
    then a policy that denies the action, then [post], and every policy of
    [pre] permits it, the middleware throws CASL's forbidden error having
    queried [pre] and the denying policy, in order, and nothing else: the
    policies after the first denial are not consulted and the downstream
    does not run. *)
Theorem authorize_stops_at_first_denial ps action req next log pre d post :
  applicable ps req = pre ++ d :: post ->
  forallb (permits action) pre = true ->
  permits action d = false ->
  authorizeOver ps action req next log
  = (Throw (ForbiddenError action "all"),
     log ++ map (query_of action) (pre ++ [d])).
Proof.
  intros Happ Hpre Hd. rewrite authorizeOver_applicable, Happ.
  assert (Hlen : (length (pre ++ d :: post) <? 1)%nat = false).
  { apply Nat.ltb_ge. rewrite length_app. simpl. lia. }
  rewrite Hlen. apply bind_throw.
  clear Happ Hlen. revert log.
  induction pre as [|q pre IH]; intros log; simpl.
  - unfold bind at 1.
    rewrite (throwUnlessCan_denied _ _ _ Hd). reflexivity.
  - simpl in Hpre. apply andb_prop in Hpre as [Hq Hpre].
    unfold bind at 1. rewrite (throwUnlessCan_permitted _ _ _ Hq).
    rewrite (IH Hpre). by rewrite <- app_assoc.
Qed.

(** X11. Only the applicable policies count: the middleware behaves on a
    list of policies as it does on the applicable ones among them, in the
    result, in the queries it makes and in whether the downstream runs. *)
Theorem authorize_ignores_inapplicable ps action req next log :
  authorizeOver ps action req next log
  = authorizeOver (applicable ps req) action req next log.
Proof.
  rewrite !authorizeOver_applicable.
  assert (Hidem : applicable (applicable ps req) req = applicable ps req).
  { rewrite !applicable_filter. induction ps as [|p ps IH]; simpl; [done|].
    destruct (evaluate p None JsNull (getEnv req)) eqn:Hp; simpl;
      [by rewrite Hp, IH|exact IH]. }
  by rewrite Hidem.
Qed.

(** X12. More policies never grant more: if an action is authorized under
    a list of policies extended by others, it is authorized under the list
    alone, provided some policy of the list applies to the request. *)
Theorem more_policies_never_grant ps qs action req :
  applicable ps req <> [] ->
  authorized (ps ++ qs) action req = true ->
  authorized ps action req = true.
Proof.
  rewrite !authorized_applicable, !applicable_filter, List.filter_app.
  intros Hne. destruct (List.filter _ ps) as [|a A]; [done|].
  simpl. intros Hall. apply andb_prop in Hall as [Ha Hall]. rewrite Ha. simpl.
  rewrite forallb_app in Hall. by apply andb_prop in Hall as [HA _].
Qed.

(** X13. The two errors tell the two refusals apart.  With a downstream
    that returns, the middleware throws the 403 problem exactly when no
    policy applies to the request, and CASL's forbidden error exactly when
    some policy applies and some applicable policy denies the action. *)
Theorem authorize_errors_tell_refusals_apart ps action req log :
  (fst (authorizeOver ps action req (ret tt) log)
   = Throw (ProblemDetailsException "forbidden" "no sufficient permissions" 403)
   <-> applicable ps req = [])
  /\ (fst (authorizeOver ps action req (ret tt) log)
      = Throw (ForbiddenError action "all")
      <-> exists p, In p (applicable ps req) /\ permits action p = false).
Proof.
  pose proof (authorizeOver_cases ps action req (ret tt) log) as Hc.
  destruct (applicable ps req) as [|q Q'].
  - rewrite Hc. simpl. split; [done|]. split; [done|]. by intros (p & [] & _).
  - cbv beta iota zeta in Hc.
    destruct (forallb (permits action) (q :: Q')) eqn:Hall.
    + rewrite Hc. simpl. split; [done|]. split; [done|].
      intros (p & Hin & Hp). rewrite forallb_forall in Hall.
      specialize (Hall p Hin). congruence.
    + destruct Hc as [log' ->]. simpl. split; [done|]. split; [|done].
      intros _. apply not_true_iff_false in Hall.
      destruct (existsb (fun p => negb (permits action p)) (q :: Q')) eqn:Hex.
      * apply existsb_exists in Hex as (p & Hin & Hp).
        exists p. split; [done|]. by apply negb_true_iff.
      * exfalso. apply Hall. apply forallb_forall. intros p Hin.
        destruct (permits action p) eqn:Hp; [done|].
        assert (Hyes : existsb (fun p => negb (permits action p)) (q :: Q')
                       = true).
        { apply existsb_exists. exists p. split; [done|]. by rewrite Hp. }
        congruence.
Qed.

End AuthorizationMore.

Section AuthorizationMoreScenarios.
Import Casl Identity Policies Authorize.

Lemma authorize_order_is_irrelevant_witness :
  Permutation [Scenarios.readOnlyGuest; Scenarios.knownAddress]
    [Scenarios.knownAddress; Scenarios.readOnlyGuest]
  /\ authorized [Scenarios.readOnlyGuest; Scenarios.knownAddress]
       "read" Scenarios.curlRequest
     = authorized [Scenarios.knownAddress; Scenarios.readOnlyGuest]
         "read" Scenarios.curlRequest.
Proof.
  assert (Hperm : Permutation
                    [Scenarios.readOnlyGuest; Scenarios.knownAddress]
                    [Scenarios.knownAddress; Scenarios.readOnlyGuest])
    by constructor.
  split; [exact Hperm|]. by apply authorize_order_is_irrelevant.
Defined.

Lemma authorize_stops_at_first_denial_witness :
  authorizeOver
    [Scenarios.knownAddress; Scenarios.membersOnly; Scenarios.readOnlyGuest;
     Scenarios.knownAddress]
    "delete" Scenarios.curlRequest (ret tt) []
  = (Throw (ForbiddenError "delete" "all"),
     [ {| queried := defineAbility [can "manage" "all"];
          queried_action := "delete" |};
       {| queried := defineAbility [can "read" "all"; cannot "delete" "all"];
          queried_action := "delete" |} ]).
Proof.
  apply (authorize_stops_at_first_denial
           [Scenarios.knownAddress; Scenarios.membersOnly;
            Scenarios.readOnlyGuest; Scenarios.knownAddress]
           "delete" Scenarios.curlRequest (ret tt) []
           [Scenarios.knownAddress] Scenarios.readOnlyGuest
           [Scenarios.knownAddress]); reflexivity.
Defined.

Lemma more_policies_never_grant_witness :
  applicable [Scenarios.knownAddress] Scenarios.curlRequest <> []
  /\ authorized ([Scenarios.knownAddress] ++ [Scenarios.readOnlyGuest])
       "read" Scenarios.curlRequest = true
  /\ authorized [Scenarios.knownAddress] "read" Scenarios.curlRequest = true.
Proof.
  assert (Hne : applicable [Scenarios.knownAddress] Scenarios.curlRequest <> [])
    by (vm_compute; discriminate).
  assert (Hboth : authorized ([Scenarios.knownAddress] ++ [Scenarios.readOnlyGuest])
                    "read" Scenarios.curlRequest = true) by reflexivity.
  split; [exact Hne|]. split; [exact Hboth|].
  exact (more_policies_never_grant _ _ _ _ Hne Hboth).
Defined.

End AuthorizationMoreScenarios.

(** ** Transactions and the mapping pipeline *)

Section TransactionFacts.
Import Context Orm.

Context {TResult : Type}.

Implicit Types (queryRunner : QueryRunner).
Implicit Types (computation : EntityManager -> Completion TResult).
Implicit Types (calls : list RunnerCall).

Ltac run_transaction :=
  unfold useTransaction, tryCatch, bind, awaited, ret, throw; simpl.

(** X14. [useTransaction] returns a result exactly when the connection,
    the start of the transaction, the computation and the commit all
    return; the result is that of the computation, and the calls made are
    those four and no other: the query runner is not released. *)
Theorem useTransaction_returns_iff queryRunner computation calls result :
  (fst (useTransaction queryRunner computation calls) = Normal result
   <-> started queryRunner
       /\ computation (manager queryRunner) = Normal result
       /\ commitTransaction queryRunner = Normal tt)
  /\ (fst (useTransaction queryRunner computation calls) = Normal result ->
      snd (useTransaction queryRunner computation calls)
      = calls ++ [Connect; StartTransaction; Computation; CommitTransaction]).
Proof.
  unfold started. run_transaction.
  destruct (connect queryRunner) as [[]|e1];
    destruct (startTransaction queryRunner) as [[]|e2];
    destruct (computation (manager queryRunner)) as [v|e3];
    destruct (commitTransaction queryRunner) as [[]|e4];
    destruct (rollbackTransaction queryRunner) as [[]|e5];
    destruct (release queryRunner) as [[]|e6];
    simpl; (split; [split; [intros Hr|intros ([? ?] & ? & ?)]|intros Hr]);
    try congruence; try discriminate;
    rewrite <- ?app_assoc; simpl; try done.
  all: try (injection Hr as ->; done).
Qed.

(** X15. The query runner is released exactly when the transaction was
    started, the body of the [try] threw and the rollback returned.  It is
    released neither after a commit that returned nor when the connection
    or the start of the transaction failed. *)
Theorem useTransaction_releases_iff queryRunner computation :
  In Release (snd (useTransaction queryRunner computation []))
  <-> started queryRunner
      /\ (exists error, body_threw queryRunner computation error)
      /\ rollbackTransaction queryRunner = Normal tt.
Proof.
  unfold started, body_threw. run_transaction.
  destruct (connect queryRunner) as [[]|e1];
    destruct (startTransaction queryRunner) as [[]|e2];
    destruct (computation (manager queryRunner)) as [v|e3];
    destruct (commitTransaction queryRunner) as [[]|e4];
    destruct (rollbackTransaction queryRunner) as [[]|e5];
    destruct (release queryRunner) as [[]|e6];
    simpl;
    (split;
     [ intros Hin;
       first
         [ solve [repeat (destruct Hin as [Hin|Hin]; [discriminate Hin|]);
                  destruct Hin]
         | solve [split; [done|]; split; [|reflexivity];
                  eexists;
                  first [ left; reflexivity
                        | right; split; [eexists; reflexivity|reflexivity] ]] ]
     | intros ([Hc Hs] & [error Hb] & Hr);
       first
         [ congruence
         | destruct Hb as [Hb|[[? Hb] Hb']];
           first [congruence | solve [auto 10]] ] ]).
Qed.

(** X16. When the transaction was started and the body of the [try] threw
    [error], the rollback is the next call; when the rollback and the
    release return, [useTransaction] throws that same [error], and the
    calls end with the rollback and the release. *)
Theorem useTransaction_rethrows queryRunner computation calls error :
  started queryRunner ->
  body_threw queryRunner computation error ->
  rollbackTransaction queryRunner = Normal tt ->
  release queryRunner = Normal tt ->
  fst (useTransaction queryRunner computation calls) = Throw error
  /\ exists body,
       snd (useTransaction queryRunner computation calls)
       = calls ++ [Connect; StartTransaction] ++ body
         ++ [RollbackTransaction; Release]
       /\ (body = [Computation] \/ body = [Computation; CommitTransaction]).
Proof.
  intros [Hc Hs] Hbody Hrb Hrel. run_transaction.
  rewrite Hc, Hs, Hrb, Hrel.
  destruct Hbody as [Hcomp|[[v Hcomp] Hcommit]].
  - rewrite Hcomp. simpl. split; [done|]. exists [Computation].
    rewrite <- !app_assoc. simpl. auto.
  - rewrite Hcomp, Hcommit. simpl. split; [done|].
    exists [Computation; CommitTransaction]. rewrite <- !app_assoc. simpl. auto.
Qed.

(** X17. An error of the cleanup replaces the error of the body: when the
    transaction was started, the body of the [try] threw and the rollback
    throws [error'], [useTransaction] throws [error'] and does not release
    the query runner; when the rollback returns and the release throws
    [error'], it throws [error']. *)
Theorem useTransaction_cleanup_error_wins queryRunner computation error error' :
  started queryRunner ->
  body_threw queryRunner computation error ->
  (rollbackTransaction queryRunner = Throw error' ->
   fst (useTransaction queryRunner computation []) = Throw error'
   /\ ~ In Release (snd (useTransaction queryRunner computation [])))
  /\ (rollbackTransaction queryRunner = Normal tt ->
      release queryRunner = Throw error' ->
      fst (useTransaction queryRunner computation []) = Throw error').
Proof.
  intros [Hc Hs] Hbody. run_transaction. rewrite Hc, Hs.
  destruct Hbody as [Hcomp|[[v Hcomp] Hcommit]];
    rewrite Hcomp, ?Hcommit; simpl.
  - split.
    + intros ->. simpl. split; [done|].
      intros Hin. repeat (destruct Hin as [Hin|Hin]; try discriminate Hin).
      contradiction.
    + by intros -> ->.
  - split.
    + intros ->. simpl. split; [done|].
      intros Hin. repeat (destruct Hin as [Hin|Hin]; try discriminate Hin).
      contradiction.
    + by intros -> ->.
Qed.

(** X18. When the connection or the start of the transaction throws,
    [useTransaction] throws that error and makes no further call: the
    computation does not run and the query runner is neither rolled back
    nor released. *)
Theorem useTransaction_not_started queryRunner computation calls error :
  (connect queryRunner = Throw error ->
   useTransaction queryRunner computation calls
   = (Throw error, calls ++ [Connect]))
  /\ (connect queryRunner = Normal tt ->
      startTransaction queryRunner = Throw error ->
      useTransaction queryRunner computation calls
      = (Throw error, calls ++ [Connect; StartTransaction])).
Proof.
  run_transaction. split.
  - by intros ->.
  - intros -> ->. by rewrite <- app_assoc.
Qed.

End TransactionFacts.

Section TransactionScenarios.
Import Context Orm MoreScenarios.

Lemma useTransaction_returns_iff_witness :
  fst (useTransaction healthyRunner savesUser []) = Normal "user"
  /\ snd (useTransaction healthyRunner savesUser [])
     = [Connect; StartTransaction; Computation; CommitTransaction].
Proof.
  destruct (useTransaction_returns_iff healthyRunner savesUser [] "user")
    as [Hiff Hcalls].
  assert (Hret : fst (useTransaction healthyRunner savesUser []) = Normal "user").
  { apply Hiff. repeat split. }
  split; [exact Hret|]. exact (Hcalls Hret).
Defined.

Lemma useTransaction_releases_iff_witness :
  In Release (snd (useTransaction healthyRunner goesWrong []))
  /\ ~ In Release (snd (useTransaction healthyRunner savesUser [])).
Proof.
  split.
  - apply useTransaction_releases_iff. split; [by split|]. split; [|done].
    exists (JsError "Something went wrong"). by left.
  - intros Hin. apply useTransaction_releases_iff in Hin
      as (_ & [error [Hb|[_ Hb]]] & _); discriminate Hb.
Defined.

Lemma useTransaction_rethrows_witness :
  started healthyRunner
  /\ body_threw healthyRunner goesWrong (JsError "Something went wrong")
  /\ useTransaction healthyRunner goesWrong []
     = (Throw (JsError "Something went wrong"),
        [Connect; StartTransaction; Computation; RollbackTransaction; Release]).
Proof.
  assert (Hs : started healthyRunner) by by split.
  assert (Hb : body_threw healthyRunner goesWrong
                 (JsError "Something went wrong")) by by left.
  split; [exact Hs|]. split; [exact Hb|].
  destruct (useTransaction_rethrows healthyRunner goesWrong [] _ Hs Hb
              eq_refl eq_refl) as (Hthrow & body & Hcalls & _).
  destruct (useTransaction healthyRunner goesWrong []) as [c calls] eqn:Hrun.
  simpl in Hthrow. subst c. f_equal. by injection Hrun as <-.
Defined.

Lemma useTransaction_cleanup_error_wins_witness :
  started stuckRunner
  /\ body_threw stuckRunner goesWrong (JsError "Something went wrong")
  /\ fst (useTransaction stuckRunner goesWrong [])
     = Throw (JsError "rollback failed")
  /\ ~ In Release (snd (useTransaction stuckRunner goesWrong [])).
Proof.
  assert (Hs : started stuckRunner) by by split.
  assert (Hb : body_threw stuckRunner goesWrong
                 (JsError "Something went wrong")) by by left.
  split; [exact Hs|]. split; [exact Hb|].
  destruct (useTransaction_cleanup_error_wins stuckRunner goesWrong _
              (JsError "rollback failed") Hs Hb) as [Hrollback _].
  exact (Hrollback eq_refl).
Defined.

Lemma useTransaction_not_started_witness :
  useTransaction offlineRunner savesUser []
  = (Throw (JsError "connection refused"), [Connect]).
Proof.
  destruct (useTransaction_not_started offlineRunner savesUser []
              (JsError "connection refused")) as [Hconnect _].
  exact (Hconnect eq_refl).
Defined.

End TransactionScenarios.

Section PipelineFacts.
Import Orm.

Context {U Raw : Type}.

Implicit Types (mappers before after : list (ExecutePipeline U Raw)).
Implicit Types (f g h : U -> nat -> Completion U).

Lemma reduce_app before after (acc : U) (rawEntity : option Raw) :
  reduce (before ++ after) acc rawEntity
  = match reduce before acc rawEntity with
    | Normal acc' => reduce after acc' rawEntity
    | Throw e => Throw e
    end.
Proof.
  revert acc. induction before as [|m before IH]; intros acc; simpl; [done|].
  destruct (m acc rawEntity); [apply IH|done].
Qed.

(** What the loop over the entities returns, entity by entity. *)
Lemma mapFrom_returns index (entities out : list U) f :
  mapFrom index entities f = Normal out <->
  length out = length entities
  /\ forall k entity,
       entities !! k = Some entity ->
       exists mapped, out !! k = Some mapped
                      /\ f entity (index + k)%nat = Normal mapped.
Proof.
  revert index out. induction entities as [|entity entities IH];
    intros index out; simpl.
  - split.
    + intros [= <-]. split; [done|]. intros k e. by rewrite lookup_nil.
    + intros [Hlen _]. destruct out; [done|discriminate].
  - split.
    + destruct (f entity index) as [mapped|e] eqn:Hf; [|discriminate].
      destruct (mapFrom (S index) entities f) as [others|e] eqn:Hrest;
        [|discriminate].
      intros [= <-]. apply IH in Hrest as [Hlen Hall]. split; [simpl; lia|].
      intros [|k] e Hk; simpl in *.
      * injection Hk as <-. exists mapped. by rewrite Nat.add_0_r.
      * destruct (Hall k e Hk) as (m & Hm & Hfm). exists m. split; [done|].
        by rewrite Nat.add_succ_r.
    + intros [Hlen Hall]. destruct out as [|mapped others]; [discriminate|].
      destruct (Hall 0%nat entity eq_refl) as (m & Hm & Hfm).
      simpl in Hm. injection Hm as <-. rewrite Nat.add_0_r in Hfm.
      rewrite Hfm.
      assert (Hrest : mapFrom (S index) entities f = Normal others).
      { apply IH. split; [simpl in Hlen; lia|]. intros k e Hk.
        destruct (Hall (S k) e Hk) as (m & Hm & Hfm'). exists m.
        split; [done|]. by rewrite Nat.add_succ_r in Hfm'. }
      by rewrite Hrest.
Qed.

Lemma mapFrom_compose index (entities out2 : list U) f g h :
  (forall entity k,
     h entity k = match f entity k with
                  | Normal mapped => g mapped k
                  | Throw e => Throw e
                  end) ->
  mapFrom index entities h = Normal out2 <->
  exists out1, mapFrom index entities f = Normal out1
               /\ mapFrom index out1 g = Normal out2.
Proof.
  intros Hh. revert index out2.
  induction entities as [|entity entities IH]; intros index out2; simpl.
  - split.
    + intros [= <-]. by exists [].
    + by intros (out1 & [= <-] & Hg).
  - rewrite Hh. destruct (f entity index) as [mapped|e] eqn:Hf.
    + split.
      * destruct (g mapped index) as [mapped2|e] eqn:Hg; [|discriminate].
        destruct (mapFrom (S index) entities h) as [others|e] eqn:Hrest;
          [|discriminate].
        intros [= <-]. apply IH in Hrest as (others1 & H1 & H2).
        exists (mapped :: others1). rewrite H1. split; [done|]. simpl.
        by rewrite Hg, H2.
      * intros (out1 & H1 & H2).
        destruct (mapFrom (S index) entities f) as [others1|e] eqn:Hrest1;
          [|discriminate].
        injection H1 as <-. simpl in H2.
        destruct (g mapped index) as [mapped2|e]; [|discriminate].
        destruct (mapFrom (S index) others1 g) as [others2|e] eqn:Hrest2;
          [|discriminate].
        injection H2 as <-.
        assert (Hrest : mapFrom (S index) entities h = Normal others2).
        { apply IH. eauto. }
        by rewrite Hrest.
    + split; [discriminate|]. by intros (out1 & [=] & _).
Qed.

(** X19. [execute] without mappers returns the entities of the query as
    they are. *)
Theorem execute_without_mappers (result : RawAndEntities U Raw) :
  execute (Normal result) [] = Normal (entities result).
Proof.
  unfold execute. generalize 0%nat.
  induction (entities result) as [|entity rest IH]; intros index; simpl;
    [done|].
  by rewrite IH.
Qed.

(** X20. When [execute] returns, it returns one entity for each entity of
    the query, in order, and the one at index [k] is the entity at [k] run
    through the mappers from left to right, each of them given the raw row
    at the same index [k] ([undefined] when the raw rows are fewer). *)
Theorem execute_maps_each_entity (result : RawAndEntities U Raw) mappers out :
  execute (Normal result) mappers = Normal out ->
  length out = length (entities result)
  /\ forall k entity,
       entities result !! k = Some entity ->
       exists mapped,
         out !! k = Some mapped
         /\ reduce mappers entity (raw result !! k) = Normal mapped.
Proof. unfold execute. intros Hrun. by apply mapFrom_returns in Hrun. Qed.

(** X21. Mappers compose: running the entities of a query through
    [before ++ after] returns [out] exactly when running them through
    [before] returns some entities and running those, with the same raw
    rows, through [after] returns [out]. *)
Theorem execute_pipeline_composes (result : RawAndEntities U Raw)
  before after out :
  execute (Normal result) (before ++ after) = Normal out <->
  exists half,
    execute (Normal result) before = Normal half
    /\ execute (Normal {| entities := half; raw := raw result |}) after
       = Normal out.
Proof.
  unfold execute. simpl. apply mapFrom_compose.
  intros entity k. apply reduce_app.
Qed.

End PipelineFacts.

Section PipelineScenarios.
Import Orm MoreScenarios.

Lemma execute_maps_each_entity_witness :
  execute threeRows [addRawLength; double] = Normal [22; 44; 66]
  /\ reduce [addRawLength; double] 20 (Some "bb") = Normal 44.
Proof.
  assert (Hrun : execute threeRows [addRawLength; double] = Normal [22; 44; 66])
    by reflexivity.
  split; [exact Hrun|].
  destruct (execute_maps_each_entity _ _ _ Hrun) as [_ Heach].
  destruct (Heach 1%nat 20 eq_refl) as (mapped & Hout & Hmapped).
  simpl in Hout. injection Hout as <-. exact Hmapped.
Defined.

End PipelineScenarios.

(** ** The order of a pagination *)

Section OrderFacts.
Import Pagination.

Context (toUpperCase : string -> string).

Implicit Types (entries : Entries) (acc o : gmap string string).
Implicit Types (key s d : string).

Lemma kept_direction s :
  kept toUpperCase s = true -> toUpperCase s = "ASC" \/ toUpperCase s = "DESC".
Proof.
  unfold kept. intros Hk%bool_decide_eq_true.
  apply elem_of_cons in Hk as [Hk|Hk]; [by right|].
  apply list_elem_of_singleton in Hk. by left.
Qed.

Lemma lookup_assign acc key d key' :
  assign acc key d !! key'
  = if bool_decide (key' = key /\ key <> "__proto__") then Some d
    else acc !! key'.
Proof.
  unfold assign. destruct (decide (key = "__proto__")) as [->|Hproto].
  - rewrite bool_decide_eq_true_2 by done.
    rewrite bool_decide_eq_false_2; [done|]. by intros [_ []].
  - rewrite bool_decide_eq_false_2 by done.
    destruct (decide (key' = key)) as [->|Hne].
    + rewrite lookup_insert_eq. by rewrite bool_decide_eq_true_2.
    + rewrite lookup_insert_ne by done.
      rewrite bool_decide_eq_false_2; [done|]. by intros [? _].
Qed.

Lemma reduceOrder_origin entries acc o key d :
  reduceOrder toUpperCase entries acc = Some o ->
  o !! key = Some d ->
  acc !! key = Some d
  \/ (key <> "__proto__"
      /\ exists s, (key, JsString s) ∈ entries
                   /\ toUpperCase s = d /\ kept toUpperCase s = true).
Proof.
  revert acc. induction entries as [|[key' value] entries IH]; intros acc; simpl.
  - intros [= <-]. by left.
  - destruct value as [| | | |s]; try discriminate.
    fold (kept toUpperCase s). destruct (kept toUpperCase s) eqn:Hk; intros Hrun Hd.
    + destruct (IH _ Hrun Hd) as [Hacc|(Hproto & s' & Hin & Hs' & Hk')].
      * rewrite lookup_assign in Hacc. case_bool_decide as Hcase.
        -- destruct Hcase as [-> Hproto]. injection Hacc as <-.
           right. split; [done|]. exists s. split; [apply list_elem_of_here|done].
        -- by left.
      * right. split; [done|]. exists s'.
        split; [by apply list_elem_of_further|done].
    + destruct (IH _ Hrun Hd) as [Hacc|(Hproto & s' & Hin & Hs' & Hk')].
      * by left.
      * right. split; [done|]. exists s'.
        split; [by apply list_elem_of_further|done].
Qed.

Lemma reduceOrder_returns entries acc :
  is_Some (reduceOrder toUpperCase entries acc)
  <-> forallb (fun entry => is_string (snd entry)) entries = true.
Proof.
  revert acc. induction entries as [|[key value] entries IH]; intros acc; simpl.
  - split; [done|]. intros _. by eexists.
  - destruct value as [| | | |s]; simpl;
      try (split; [by intros [? ?]|discriminate]).
    destruct (bool_decide _); apply IH.
Qed.

Lemma reduceOrder_frame entries acc o key :
  reduceOrder toUpperCase entries acc = Some o ->
  key ∉ map fst entries ->
  o !! key = acc !! key.
Proof.
  revert acc. induction entries as [|[key' value] entries IH]; intros acc; simpl.
  - by intros [= <-].
  - intros Hrun Hnin. apply not_elem_of_cons in Hnin as [Hne Hnin].
    destruct value as [| | | |s]; try discriminate.
    destruct (bool_decide _).
    + rewrite (IH _ Hrun Hnin), lookup_assign.
      rewrite bool_decide_eq_false_2; [done|]. by intros [? _].
    + by apply IH.
Qed.

(** X22. What [getOrder] returns is clean: every property of the result is
    a key of [this.order] other than '__proto__', and its value is 'ASC' or
    'DESC', the upper-cased value that key has in [this.order]. *)
Theorem getOrder_is_clean (p : Pagination) o key d :
  getOrder toUpperCase p = Some o ->
  o !! key = Some d ->
  (d = "ASC" \/ d = "DESC")
  /\ key <> "__proto__"
  /\ exists entries s,
       order p = Some entries
       /\ (key, JsString s) ∈ entries
       /\ toUpperCase s = d.
Proof.
  unfold getOrder. destruct (order p) as [entries|].
  - intros Hrun Hd.
    destruct (reduceOrder_origin _ _ _ _ _ Hrun Hd)
      as [Hempty|(Hproto & s & Hin & Hs & Hk)].
    + by rewrite lookup_empty in Hempty.
    + split; [rewrite <- Hs; by apply kept_direction|].
      split; [done|]. eauto.
  - intros [= <-]. by rewrite lookup_empty.
Qed.

Lemma forallb_false_entry {A} (P : A -> bool) (l : list A) :
  forallb P l = false -> exists x, x ∈ l /\ P x = false.
Proof.
  induction l as [|x l IH]; simpl; [discriminate|].
  destruct (P x) eqn:Hx; simpl.
  - intros (y & Hy & HPy)%IH. exists y. split; [by apply list_elem_of_further|done].
  - intros _. exists x. split; [apply list_elem_of_here|done].
Qed.

(** X23. [getOrder] returns, without an order or when every value of
    [this.order] is a string; it throws exactly when some value of
    [this.order] is not a string. *)
Theorem getOrder_throws_iff (p : Pagination) :
  getOrder toUpperCase p = None
  <-> exists entries key value,
        order p = Some entries
        /\ (key, value) ∈ entries
        /\ is_string value = false.
Proof.
  unfold getOrder. destruct (order p) as [entries|].
  - pose proof (reduceOrder_returns entries ∅) as Hret. split.
    + intros Hnone. exists entries.
      destruct (forallb (fun entry => is_string entry.2) entries) eqn:Hall.
      * destruct (proj2 Hret eq_refl) as [o Ho]. congruence.
      * apply forallb_false_entry in Hall as ([key value] & Hin & Hv).
        exists key, value. done.
    + intros (entries' & key & value & [= <-] & Hin & Hv).
      destruct (reduceOrder toUpperCase entries ∅) as [o|] eqn:Hrun; [|done].
      assert (Hall : forallb (fun entry => is_string entry.2) entries = true)
        by (apply Hret; eauto).
      rewrite forallb_forall in Hall.
      apply list_elem_of_In, Hall in Hin. simpl in Hin. congruence.
  - split; [discriminate|]. by intros (? & ? & ? & [=] & _).
Qed.

(** X24. For an order whose values are all strings, [getOrder] returns and
    decides each key on its own: the result has the key, with the
    upper-cased value, when that is 'ASC' or 'DESC' and the key is not
    '__proto__', and does not have it otherwise. *)
Theorem getOrder_decides_each_key (p : Pagination) entries key s :
  order p = Some entries ->
  NoDup (map fst entries) ->
  forallb (fun entry => is_string (snd entry)) entries = true ->
  (key, JsString s) ∈ entries ->
  exists o,
    getOrder toUpperCase p = Some o
    /\ o !! key
       = if kept toUpperCase s && negb (bool_decide (key = "__proto__"))
         then Some (toUpperCase s) else None.
Proof.
  unfold getOrder. intros -> Hnodup Hall Hin.
  destruct (proj2 (reduceOrder_returns entries ∅) Hall) as [o Hrun].
  exists o. split; [done|].
  assert (Hgen : forall acc,
    reduceOrder toUpperCase entries acc = Some o ->
    acc !! key = None ->
    o !! key = if kept toUpperCase s && negb (bool_decide (key = "__proto__"))
               then Some (toUpperCase s) else None);
    [|by apply (Hgen ∅)].
  clear Hrun Hall. induction entries as [|[key' value] entries IH];
    intros acc Hrun Hacc; [by apply elem_of_nil in Hin|].
  simpl in Hnodup. apply NoDup_cons in Hnodup as [Hfresh Hnodup].
  apply elem_of_cons in Hin as [[= <- <-]|Hin].
  - simpl in Hrun. fold (kept toUpperCase s) in Hrun.
    destruct (kept toUpperCase s) eqn:Hk; simpl.
    + rewrite (reduceOrder_frame _ _ _ _ Hrun Hfresh), lookup_assign.
      destruct (decide (key = "__proto__")) as [Hproto|Hproto].
      * rewrite (bool_decide_eq_true_2 (key = "__proto__")) by done.
        rewrite bool_decide_eq_false_2; [done|]. by intros [_ []].
      * rewrite (bool_decide_eq_false_2 (key = "__proto__")) by done.
        by rewrite bool_decide_eq_true_2.
    + by rewrite (reduceOrder_frame _ _ _ _ Hrun Hfresh).
  - assert (Hne : key <> key').
    { intros ->. apply Hfresh.
      apply list_elem_of_In, in_map_iff. exists (key', JsString s).
      split; [done|]. by apply list_elem_of_In. }
    simpl in Hrun. destruct value as [| | | |s']; try discriminate.
    destruct (bool_decide (toUpperCase s' ∈ _)).
    + apply (IH Hnodup Hin _ Hrun). rewrite lookup_assign.
      rewrite bool_decide_eq_false_2; [done|]. by intros [? _].
    + by apply (IH Hnodup Hin _ Hrun).
Qed.

End OrderFacts.

Section OrderScenarios.
Import Pagination MoreScenarios.

Lemma getOrder_is_clean_witness :
  getOrder asciiUpper sortedQuery
  = Some {[ "name" := "ASC"; "age" := "DESC" ]}
  /\ ("ASC" = "ASC" \/ "ASC" = "DESC")
  /\ "name" <> "__proto__".
Proof.
  assert (Hrun : getOrder asciiUpper sortedQuery
                 = Some {[ "name" := "ASC"; "age" := "DESC" ]})
    by (vm_compute; reflexivity).
  split; [exact Hrun|].
  destruct (getOrder_is_clean asciiUpper sortedQuery _ "name" "ASC" Hrun)
    as (Hd & Hproto & _); [reflexivity|].
  split; [exact Hd|exact Hproto].
Defined.

Lemma getOrder_throws_iff_witness :
  getOrder asciiUpper brokenQuery = None.
Proof.
  apply getOrder_throws_iff.
  exists [("name", JsString "asc"); ("age", JsNumber 1)], "age", (JsNumber 1).
  split; [reflexivity|].
  split; [apply list_elem_of_further, list_elem_of_here|reflexivity].
Defined.

Lemma getOrder_decides_each_key_witness :
  exists o,
    getOrder asciiUpper sortedQuery = Some o
    /\ o !! "__proto__" = None
    /\ o !! "id" = None
    /\ o !! "age" = Some "DESC".
Proof.
  assert (Hnodup : NoDup (map fst [("name", JsString "asc");
                                   ("age", JsString "Desc");
                                   ("id", JsString "sideways");
                                   ("__proto__", JsString "ASC")])).
  { simpl. apply NoDup_ListNoDup. repeat constructor; simpl; intuition discriminate. }
  destruct (getOrder_decides_each_key asciiUpper sortedQuery _ "__proto__" "ASC"
              eq_refl Hnodup eq_refl) as (o & Hrun & Hproto).
  { apply list_elem_of_further, list_elem_of_further, list_elem_of_further,
      list_elem_of_here. }
  exists o. split; [exact Hrun|]. split; [exact Hproto|].
  destruct (getOrder_decides_each_key asciiUpper sortedQuery _ "id" "sideways"
              eq_refl Hnodup eq_refl) as (o1 & Hrun1 & Hid).
  { apply list_elem_of_further, list_elem_of_further, list_elem_of_here. }
  destruct (getOrder_decides_each_key asciiUpper sortedQuery _ "age" "Desc"
              eq_refl Hnodup eq_refl) as (o2 & Hrun2 & Hage).
  { apply list_elem_of_further, list_elem_of_here. }
  rewrite Hrun in Hrun1, Hrun2. injection Hrun1 as <-. injection Hrun2 as <-.
  split; [exact Hid|exact Hage].
Defined.

End OrderScenarios.

(** ** The public links of the file manager *)

Section PublicLinkFacts.
Import Stdlib.Strings.Ascii.
Import FileManager.

Implicit Types (c : ascii) (s prefix : string) (file : File) (f : FFile).

Lemma endsWith_cons c c' prefix :
  endsWith c prefix = true -> endsWith c (String c' prefix) = true.
Proof. by destruct prefix. Qed.

Lemma includes_splitPop c s : includes c (splitPop c s) = false.
Proof.
  induction s as [|c' rest IH]; simpl; [done|].
  destruct (includes c rest) eqn:Hrest; [exact IH|].
  case_bool_decide as Hc; [exact Hrest|].
  simpl. by rewrite bool_decide_eq_false_2, Hrest.
Qed.

Lemma splitPop_suffix c s :
  exists prefix,
    s = String.append prefix (splitPop c s)
    /\ if includes c s then endsWith c prefix = true else prefix = EmptyString.
Proof.
  induction s as [|c' rest (prefix & Hrest & Hprefix)]; simpl.
  - by exists EmptyString.
  - destruct (includes c rest) eqn:Hinc.
    + exists (String c' prefix). split.
      * change (String c' rest
                = String c' (String.append prefix (splitPop c rest))).
        f_equal. exact Hrest.
      * rewrite orb_true_r. by apply endsWith_cons.
    + subst prefix. case_bool_decide as Hc; simpl.
      * exists (String c' EmptyString). simpl. split; [done|].
        by rewrite bool_decide_eq_true_2.
      * by exists EmptyString.
Qed.

Lemma getKindByType_table (value : string) :
  getKindByType value
  = if bool_decide (value = "png") then KindOf image
    else if bool_decide (value = "jpeg") then KindOf image
    else if bool_decide (value = "pdf") then KindOf document
    else if bool_decide (value ∈ objectPrototype) then PrototypeMember value
    else KindOf other.
Proof.
  unfold getKindByType, typeToKindMap.
  destruct (decide (value = "png")) as [->|Hpng]; [reflexivity|].
  rewrite (bool_decide_eq_false_2 (value = "png")) by done.
  rewrite lookup_insert_ne by done.
  destruct (decide (value = "jpeg")) as [->|Hjpeg]; [reflexivity|].
  rewrite (bool_decide_eq_false_2 (value = "jpeg")) by done.
  rewrite lookup_insert_ne by done.
  destruct (decide (value = "pdf")) as [->|Hpdf]; [reflexivity|].
  rewrite (bool_decide_eq_false_2 (value = "pdf")) by done.
  by rewrite lookup_singleton_ne.
Qed.

Lemma listPublicLinks_entries files out f :
  listPublicLinks (Normal files) = Normal out ->
  In f out -> exists file, In file files /\ f = publicLink file.
Proof.
  intros [= <-] Hin. apply in_map_iff in Hin as (file & <- & Hin). eauto.
Qed.

(** X25. The extension of every entry [listPublicLinks] returns is what
    follows the last '.' of its link: it has no '.' in it, the link ends
    with it, and what precedes it in the link ends with '.'; when the link
    has no '.', the extension is the whole link. *)
Theorem listPublicLinks_ext_is_last_segment files out f :
  listPublicLinks (Normal files) = Normal out ->
  In f out ->
  includes "." (ext f) = false
  /\ exists prefix,
       link f = String.append prefix (ext f)
       /\ if includes "." (link f) then endsWith "." prefix = true
          else prefix = EmptyString.
Proof.
  intros Hrun Hin.
  destruct (listPublicLinks_entries _ _ _ Hrun Hin) as (file & _ & ->).
  simpl. split; [apply includes_splitPop|apply splitPop_suffix].
Qed.

(** X26. An entry [listPublicLinks] returns is marked as a folder exactly
    when its kind is 'folder', and that is exactly when its name ends with
    '/'. *)
Theorem listPublicLinks_folders files out f :
  listPublicLinks (Normal files) = Normal out ->
  In f out ->
  (isFolder f = true <-> kind f = KindOf folder)
  /\ isFolder f = endsWith "/" (name f).
Proof.
  intros Hrun Hin.
  destruct (listPublicLinks_entries _ _ _ Hrun Hin) as (file & _ & ->).
  simpl. split; [|done].
  destruct (endsWith "/" (file_name file)); [done|].
  split; [discriminate|]. rewrite getKindByType_table.
  repeat case_bool_decide; discriminate.
Qed.

(** X27. The kind of an entry that is not a folder is read off its
    extension, as it is written: 'image' exactly for 'png' and 'jpeg',
    'document' exactly for 'pdf'; for an extension that names a member of
    [Object.prototype] the kind is that member and not a kind; 'other' for
    everything else. *)
Theorem listPublicLinks_kinds files out f :
  listPublicLinks (Normal files) = Normal out ->
  In f out ->
  isFolder f = false ->
  (kind f = KindOf image <-> ext f = "png" \/ ext f = "jpeg")
  /\ (kind f = KindOf document <-> ext f = "pdf")
  /\ (forall member, kind f = PrototypeMember member
                     <-> member = ext f /\ ext f ∈ objectPrototype)
  /\ (kind f = KindOf other
      <-> ext f <> "png" /\ ext f <> "jpeg" /\ ext f <> "pdf"
          /\ ext f ∉ objectPrototype).
Proof.
  intros Hrun Hin.
  destruct (listPublicLinks_entries _ _ _ Hrun Hin) as (file & _ & ->).
  simpl. intros ->. rewrite getKindByType_table.
  set (e := splitPop "." (publicUrl file)).
  assert (Hpng : "png" ∉ objectPrototype).
  { intros Hm. apply (bool_decide_eq_true_2 _) in Hm. vm_compute in Hm.
    discriminate Hm. }
  assert (Hjpeg : "jpeg" ∉ objectPrototype).
  { intros Hm. apply (bool_decide_eq_true_2 _) in Hm. vm_compute in Hm.
    discriminate Hm. }
  assert (Hpdf : "pdf" ∉ objectPrototype).
  { intros Hm. apply (bool_decide_eq_true_2 _) in Hm. vm_compute in Hm.
    discriminate Hm. }
  destruct (decide (e = "png")) as [He|He1].
  { rewrite He in *. rewrite bool_decide_eq_true_2 by done.
    split_and!; [intuition congruence..|].
    split; [discriminate|]. by intros [? _]. }
  rewrite (bool_decide_eq_false_2 (e = "png")) by done.
  destruct (decide (e = "jpeg")) as [He|He2].
  { rewrite He in *. rewrite bool_decide_eq_true_2 by done.
    split_and!; [intuition congruence..|].
    split; [discriminate|]. by intros (_ & ? & _). }
  rewrite (bool_decide_eq_false_2 (e = "jpeg")) by done.
  destruct (decide (e = "pdf")) as [He|He3].
  { rewrite He in *. rewrite bool_decide_eq_true_2 by done.
    split_and!; [intuition congruence..|].
    split; [discriminate|]. by intros (_ & _ & ? & _). }
  rewrite (bool_decide_eq_false_2 (e = "pdf")) by done.
  destruct (decide (e ∈ objectPrototype)) as [Hm|Hm].
  - rewrite bool_decide_eq_true_2 by done.
    split_and!; intuition congruence.
  - rewrite bool_decide_eq_false_2 by done.
    split_and!; intuition congruence.
Qed.

End PublicLinkFacts.

Section PublicLinkScenarios.
Import Stdlib.Strings.Ascii.
Import FileManager MoreScenarios.

Lemma listPublicLinks_ext_is_last_segment_witness :
  listPublicLinks (Normal [album; photo])
  = Normal [publicLink album; publicLink photo]
  /\ ext (publicLink photo) = "png"
  /\ ext (publicLink album) = "com/bucket/albums%2F2024%2F"
  /\ includes "."%char (ext (publicLink album)) = false.
Proof.
  assert (Hrun : listPublicLinks (Normal [album; photo])
                 = Normal [publicLink album; publicLink photo]) by reflexivity.
  split; [exact Hrun|]. split; [reflexivity|]. split; [reflexivity|].
  destruct (listPublicLinks_ext_is_last_segment _ _ (publicLink album) Hrun)
    as [Hnone _]; [by left|exact Hnone].
Defined.

Lemma listPublicLinks_folders_witness :
  isFolder (publicLink album) = true
  /\ kind (publicLink album) = KindOf folder
  /\ kind (publicLink photo) = KindOf image.
Proof.
  assert (Hrun : listPublicLinks (Normal [album; photo])
                 = Normal [publicLink album; publicLink photo]) by reflexivity.
  destruct (listPublicLinks_folders _ _ (publicLink album) Hrun)
    as [Hiff _]; [by left|].
  split; [reflexivity|]. split; [by apply Hiff|reflexivity].
Defined.

Lemma listPublicLinks_kinds_witness :
  isFolder (publicLink photo) = false
  /\ kind (publicLink photo) = KindOf image.
Proof.
  assert (Hrun : listPublicLinks (Normal [album; photo])
                 = Normal [publicLink album; publicLink photo]) by reflexivity.
  split; [reflexivity|].
  destruct (listPublicLinks_kinds _ _ (publicLink photo) Hrun)
    as (Himage & _); [right; by left|reflexivity|].
  apply Himage. by left.
Defined.

End PublicLinkScenarios.
